(** * Pairing and resume engine of the music similarity feedback app

    A shallow embedding of [train_app.py]: the pair builder
    ([generate_pairs]), the loader of a previous feedback file
    ([load_previous_feedback]), the submit operation
    ([handle_submission]) and the parts of [main] that install a work queue
    and offer the submit button, followed by the properties the
    specification states about them. *)

From Stdlib Require Import String Ascii Bool Arith Lia QArith Permutation List.
Import ListNotations.

Set Warnings "-register-all".

Local Open Scope list_scope.
Local Open Scope nat_scope.

(** ** The Python values the program handles *)

Module Py.

(** The exceptions that the modelled code can raise. *)
Inductive exn : Type :=
| TypeError
| KeyError
| IndexError
| JSONDecodeError
| UnicodeDecodeError.

(** A computation returns a value or raises. *)
Inductive result (A : Type) : Type :=
| Ok (a : A)
| Raise (e : exn).
Arguments Ok {A} a.
Arguments Raise {A} e.

Definition bind {A B} (m : result A) (k : A -> result B) : result B :=
  match m with
  | Ok a => k a
  | Raise e => Raise e
  end.

(** What [json.loads] can produce: [None], booleans, numbers, strings,
    lists, and dicts with string keys.  A dict is kept as its items in
    insertion order; a lookup takes the first item with the key. *)
Inductive value : Type :=
| VNone
| VBool (b : bool)
| VNum (q : Q)
| VStr (s : string)
| VList (l : list value)
| VDict (items : list (string * value)).

Definition dict_get {V} (items : list (string * V)) (key : string) : option V :=
  option_map snd (find (fun kv => String.eqb key (fst kv)) items).

Definition dict_has {V} (items : list (string * V)) (key : string) : bool :=
  existsb (fun kv => String.eqb key (fst kv)) items.

(** [d[key] = v]: an existing key keeps its place, a new one goes last. *)
Fixpoint dict_set {V} (items : list (string * V)) (key : string) (v : V)
  : list (string * V) :=
  match items with
  | [] => [(key, v)]
  | (k, w) :: rest =>
      if String.eqb key k then (k, v) :: rest
      else (k, w) :: dict_set rest key v
  end.

Definition keys {V} (items : list (string * V)) : list string :=
  map fst items.

(** [needle in hay] for two strings: [needle] occurs in [hay]. *)
Fixpoint is_substring (needle hay : string) : bool :=
  String.prefix needle hay ||
  match hay with
  | EmptyString => false
  | String _ rest => is_substring needle rest
  end.

(** [s == v] for a string [s]: only an equal string is equal to it. *)
Definition str_eq (s : string) (v : value) : bool :=
  match v with
  | VStr t => String.eqb s t
  | _ => false
  end.

(** [key in entry] for a string [key]: key membership in a dict, substring
    test in a string, element membership in a list, and [TypeError] on
    [None], booleans and numbers. *)
Definition contains (entry : value) (key : string) : result bool :=
  match entry with
  | VDict items => Ok (dict_has items key)
  | VStr s => Ok (is_substring key s)
  | VList l => Ok (existsb (str_eq key) l)
  | VNone | VBool _ | VNum _ => Raise TypeError
  end.

(** [entry[key]] for a string [key]: defined on dicts only, [KeyError]
    when the key is absent. *)
Definition getitem (entry : value) (key : string) : result value :=
  match entry with
  | VDict items =>
      match dict_get items key with
      | Some v => Ok v
      | None => Raise KeyError
      end
  | _ => Raise TypeError
  end.

(** Lists and dicts cannot be hashed, so cannot be put in a set, alone or
    inside a tuple. *)
Definition hashable (v : value) : bool :=
  match v with
  | VList _ | VDict _ => false
  | _ => true
  end.

(** [all(test(k) for k in ks)]: stops at the first [False], and at the
    first exception. *)
Fixpoint all_of {A} (test : A -> result bool) (ks : list A) : result bool :=
  match ks with
  | [] => Ok true
  | k :: rest =>
      bind (test k) (fun b => if b then all_of test rest else Ok false)
  end.

(** A comprehension whose element expression may raise. *)
Fixpoint comprehension {A B} (elt : A -> result B) (xs : list A)
  : result (list B) :=
  match xs with
  | [] => Ok []
  | x :: rest =>
      bind (elt x) (fun y =>
      bind (comprehension elt rest) (fun ys => Ok (y :: ys)))
  end.

End Py.

Import Py.

Notation "x <- m ;; k" := (bind m (fun x => k))
  (at level 61, m at next level, right associativity).

(** ** The pair builder *)

Abbreviation pair_t := (string * string)%type.

(** The comprehension
    [[(file_names[i], file_names[j]) for i in range(len(file_names))
      for j in range(i + 1, len(file_names))]]. *)
Definition all_pairs (file_names : list string) : list pair_t :=
  flat_map
    (fun i =>
       map (fun j => (nth i file_names EmptyString, nth j file_names EmptyString))
           (seq (i + 1) (length file_names - (i + 1))))
    (seq 0 (length file_names)).

(** One element [(f[k1], f[k2])] of a set comprehension: both lookups, then
    the hash the set needs. *)
Definition rated_tuple (k1 k2 : string) (f : value) : result (value * value) :=
  a <- getitem f k1 ;;
  b <- getitem f k2 ;;
  if hashable a && hashable b then Ok (a, b) else Raise TypeError.

(** [(p0, p1) in rated_pairs] for a tuple of two strings; the set is kept as
    the list of its elements, of which only membership is ever asked. *)
Definition pair_in (pair : pair_t) (rated_pairs : list (value * value)) : bool :=
  existsb (fun t => str_eq (fst pair) (fst t) && str_eq (snd pair) (snd t))
          rated_pairs.

(** [generate_pairs(file_names, existing_feedback)].  The default [None] of
    the second argument takes the same branch as the empty list. *)
Definition generate_pairs (file_names : list string)
    (existing_feedback : list value) : result (list pair_t) :=
  match existing_feedback with
  | [] => Ok (all_pairs file_names)
  | _ :: _ =>
      rated_ab <- comprehension (rated_tuple "song_a" "song_b") existing_feedback ;;
      rated_ba <- comprehension (rated_tuple "song_b" "song_a") existing_feedback ;;
      let rated_pairs := rated_ab ++ rated_ba in
      Ok (filter (fun pair => negb (pair_in (fst pair, snd pair) rated_pairs))
                 (all_pairs file_names))
  end.

(** ** The session store *)

(** [st.session_state] once [initialize_session_state] has run; the key
    ['initialized'] is then always [True] and is left out. *)
Record session_state : Type := mk_session {
  feedback : list value;
  remaining_pairs : list pair_t;
  current_pair_index : nat;
  audio_files : list (string * list Byte.byte)
}.

(** Code that reads and writes the store and may raise.  An exception does
    not undo the writes made before it. *)
Definition App (A : Type) : Type := session_state -> result A * session_state.

Definition ret {A} (a : A) : App A := fun st => (Ok a, st).

Definition app_bind {A B} (m : App A) (k : A -> App B) : App B :=
  fun st =>
    match m st with
    | (Ok a, st') => k a st'
    | (Raise e, st') => (Raise e, st')
    end.

Definition lift {A} (r : result A) : App A := fun st => (r, st).

Definition read {A} (field : session_state -> A) : App A :=
  fun st => (Ok (field st), st).

Definition set_feedback (v : list value) : App unit :=
  fun st => (Ok tt, mk_session v (remaining_pairs st) (current_pair_index st) (audio_files st)).

Definition set_remaining_pairs (v : list pair_t) : App unit :=
  fun st => (Ok tt, mk_session (feedback st) v (current_pair_index st) (audio_files st)).

Definition set_current_pair_index (v : nat) : App unit :=
  fun st => (Ok tt, mk_session (feedback st) (remaining_pairs st) v (audio_files st)).

Definition set_audio_files (v : list (string * list Byte.byte)) : App unit :=
  fun st => (Ok tt, mk_session (feedback st) (remaining_pairs st) (current_pair_index st) v).

Notation "x <~ m ;; k" := (app_bind m (fun x => k))
  (at level 61, m at next level, right associativity).
Notation "m ;;; k" := (app_bind m (fun _ => k))
  (at level 61, right associativity).

(** The store [initialize_session_state] leaves when it finds none. *)
Definition initial_state : session_state := mk_session [] [] 0 [].

Definition initialize_session_state (store : option session_state) : session_state :=
  match store with
  | None => initial_state
  | Some st => st
  end.

(** [l[i]] for an index that is never negative. *)
Definition index {A} (l : list A) (i : nat) : result A :=
  match nth_error l i with
  | Some x => Ok x
  | None => Raise IndexError
  end.

Definition truthy {A} (l : list A) : bool :=
  match l with
  | [] => false
  | _ :: _ => true
  end.

(** The dict [handle_submission] appends. *)
Definition feedback_entry (current_pair : pair_t) (similarity_score : Q) : value :=
  VDict [("song_a"%string, VStr (fst current_pair));
         ("song_b"%string, VStr (snd current_pair));
         ("similarity_score"%string, VNum similarity_score)].

Definition handle_submission (similarity_score : Q) : App bool :=
  remaining <~ read remaining_pairs ;;
  if truthy remaining then
    i <~ read current_pair_index ;;
    current_pair <~ lift (index remaining i) ;;
    fb <~ read feedback ;;
    set_feedback (fb ++ [feedback_entry current_pair similarity_score]) ;;;
    i' <~ read current_pair_index ;;
    set_current_pair_index (i' + 1) ;;;
    ret true
  else ret false.

(** ** Files and the JSON codec *)

(** The bytes of a JSON upload, kept as what [json.loads] makes of them:
    the decoded value, or nothing when the text is not JSON, or when the
    bytes are no text in a Unicode encoding at all.  [json.dumps] writes a
    text that decodes to the value it was given. *)
Inductive json_text : Type :=
| NotJSON
| NotText
| Encoded (v : value).

Definition json_loads (content : json_text) : result value :=
  match content with
  | NotJSON => Raise JSONDecodeError
  | NotText => Raise UnicodeDecodeError
  | Encoded v => Ok v
  end.

Definition json_dumps (v : value) : json_text := Encoded v.

(** An uploaded audio file: its name and its bytes. *)
Record uploaded_file : Type := mk_upload {
  name : string;
  content : list Byte.byte
}.

(** What the page shows through [st.error], [st.success], [st.warning] and
    [st.write]. *)
Inductive message : Type :=
| ErrorExpectedList
| ErrorMissingFields
| ErrorInvalidJSON
| ErrorLoading (e : exn)
| SuccessLoaded (n : nat)
| WriteRated (rated_pairs total_pairs : nat)
| WarningTwoFiles
| WriteSongs (current_pair : pair_t)
| SuccessAllRated
| WritePleaseUpload.

Definition save_uploaded_files (uploaded_files : list uploaded_file)
  : list (string * list Byte.byte) :=
  fold_left (fun audio f => dict_set audio (name f) (content f)) uploaded_files [].

Definition required_keys : list string :=
  ["song_a"; "song_b"; "similarity_score"]%string.

(** The [for entry in feedback_data] loop: [Ok true] when it runs to its end,
    [Ok false] when it leaves at an entry that does not pass the test. *)
Fixpoint entries_pass (feedback_data : list value) : result bool :=
  match feedback_data with
  | [] => Ok true
  | entry :: rest =>
      ok <- all_of (contains entry) required_keys ;;
      if ok then entries_pass rest else Ok false
  end.

(** The body of the [try]. *)
Definition load_previous_feedback_try (feedback_file : json_text)
  : result (list value * list message) :=
  feedback_data <- json_loads feedback_file ;;
  match feedback_data with
  | VList entries =>
      ok <- entries_pass entries ;;
      if ok then Ok (entries, []) else Ok ([], [ErrorMissingFields])
  | _ => Ok ([], [ErrorExpectedList])
  end.

(** [load_previous_feedback]: the list it returns and the errors it shows. *)
Definition load_previous_feedback (feedback_file : json_text)
  : list value * list message :=
  match load_previous_feedback_try feedback_file with
  | Ok r => r
  | Raise JSONDecodeError => ([], [ErrorInvalidJSON])
  | Raise e => ([], [ErrorLoading e])
  end.

(** ** One run of [main] *)

(** The widgets as the rater left them: the two uploads, the slider, counted
    in steps of 0.1 from its minimum, and the submit button. *)
Record widgets : Type := mk_widgets {
  uploaded_files : list uploaded_file;
  feedback_upload : option json_text;
  slider_steps : nat;
  submit_clicked : bool
}.

(** [st.slider(min_value=0.0, max_value=1.0, step=0.1)]: the value is
    [steps] tenths, and the widget does not go past its maximum. *)
Definition slider (steps : nat) : Q := Z.of_nat (Nat.min steps 10) # 10.

(** [current_files != stored_files], both sets of names. *)
Definition same_names (xs ys : list string) : bool :=
  forallb (fun x => existsb (String.eqb x) ys) xs &&
  forallb (fun y => existsb (String.eqb y) xs) ys.

(** [audio_files[key]]. *)
Definition audio_of (audio : list (string * list Byte.byte)) (key : string)
  : result (list Byte.byte) :=
  match dict_get audio key with
  | Some b => Ok b
  | None => Raise KeyError
  end.

(** The branch taken when the uploaded names differ from the stored ones, up
    to its [st.rerun()].  [shuffle] is what [random.shuffle] does to the
    list this time. *)
Definition activate (shuffle : list pair_t -> list pair_t) (w : widgets)
  : App (list message) :=
  set_audio_files (save_uploaded_files (uploaded_files w)) ;;;
  loaded <~ match feedback_upload w with
            | Some feedback_file =>
                let (previous_feedback, errors) := load_previous_feedback feedback_file in
                if truthy previous_feedback then
                  set_feedback previous_feedback ;;;
                  ret (previous_feedback,
                       errors ++ [SuccessLoaded (length previous_feedback)])
                else ret (previous_feedback, errors)
            | None => ret ([], [])
            end ;;
  audio <~ read audio_files ;;
  pairs <~ lift (generate_pairs (keys audio) (fst loaded)) ;;
  set_remaining_pairs (shuffle pairs) ;;;
  set_current_pair_index 0 ;;;
  ret (snd loaded).

(** The rest of the page: progress, the current pair with its slider and
    submit button, or the closing message. *)
Definition rate (w : widgets) : App (list message) :=
  remaining <~ read remaining_pairs ;;
  fb <~ read feedback ;;
  let total_pairs := length remaining + length fb in
  let rated_pairs := length fb in
  audio <~ read audio_files ;;
  if length audio <? 2 then ret [WriteRated rated_pairs total_pairs; WarningTwoFiles]
  else
    i <~ read current_pair_index ;;
    if i <? length remaining then
      current_pair <~ lift (index remaining i) ;;
      lift (audio_of audio (fst current_pair)) ;;;
      lift (audio_of audio (snd current_pair)) ;;;
      let similarity_score := slider (slider_steps w) in
      (if submit_clicked w
       then handle_submission similarity_score
       else ret false) ;;;
      ret [WriteRated rated_pairs total_pairs; WriteSongs current_pair]
    else ret [WriteRated rated_pairs total_pairs; SuccessAllRated].

(** One run of the script, without the reset buttons. *)
Definition main (shuffle : list pair_t -> list pair_t) (w : widgets)
  : App (list message) :=
  if truthy (uploaded_files w) then
    stored <~ read audio_files ;;
    if negb (same_names (map name (uploaded_files w)) (keys stored))
    then activate shuffle w
    else rate w
  else ret [WritePleaseUpload].

(** The document behind the download button, which is there only when some
    feedback exists. *)
Definition export_feedback (st : session_state) : option json_text :=
  if truthy (feedback st) then Some (json_dumps (VList (feedback st))) else None.

(** [n] presses of the submit handler, one score each. *)
Fixpoint submit_all (scores : list Q) : App (list bool) :=
  match scores with
  | [] => ret []
  | s :: rest =>
      ok <~ handle_submission s ;;
      oks <~ submit_all rest ;;
      ret (ok :: oks)
  end.

(** ** Vocabulary of the statements *)

(** The pair a feedback entry is a judgment of: its two song fields, when
    both are there and are strings. *)
Definition judged_pair (f : value) : option pair_t :=
  match getitem f "song_a", getitem f "song_b" with
  | Ok (VStr a), Ok (VStr b) => Some (a, b)
  | _, _ => None
  end.

Definition is_judgment (f : value) : bool :=
  match judged_pair f with
  | Some _ => true
  | None => false
  end.

(** Two pairs that name the same two songs, in the same or in the opposite
    order. *)
Definition same_pair (p q : pair_t) : bool :=
  (String.eqb (fst p) (fst q) && String.eqb (snd p) (snd q)) ||
  (String.eqb (fst p) (snd q) && String.eqb (snd p) (fst q)).

(** A pair that some entry of the list is a judgment of, in either order. *)
Definition judged_in (fs : list value) (p : pair_t) : bool :=
  existsb (fun f => match judged_pair f with
                    | Some q => same_pair p q
                    | None => false
                    end) fs.

(** The entries that submitting the pairs [ps] with the scores [ss], one
    after the other, appends. *)
Definition entries_of (ps : list pair_t) (ss : list Q) : list value :=
  map (fun ps => feedback_entry (fst ps) (snd ps)) (combine ps ss).

(** A session with a current pair. *)
Definition active (st : session_state) : Prop :=
  current_pair_index st < length (remaining_pairs st).

(** ** The scenario of three files *)

Definition abc : list string := ["a.wav"; "b.wav"; "c.wav"]%string.

Definition abc_uploads : list uploaded_file :=
  [mk_upload "a.wav" []; mk_upload "b.wav" []; mk_upload "c.wav" []].

Definition abc_audio : list (string * list Byte.byte) :=
  [("a.wav", []); ("b.wav", []); ("c.wav", [])]%string.

Definition abc_queue : list pair_t :=
  [("a.wav", "b.wav"); ("a.wav", "c.wav"); ("b.wav", "c.wav")]%string.

(** The session right after the three files were uploaded, with the queue in
    the order of the enumeration. *)
Definition abc_start : session_state := mk_session [] abc_queue 0 abc_audio.

(** The same session after one, and after three, ratings. *)
Definition abc_after_one : session_state :=
  mk_session (entries_of abc_queue [7 # 10]) abc_queue 1 abc_audio.


(** ** Sessions that the page can reach *)

(** The names [main] hands to [generate_pairs]: the keys of the stored audio
    files. *)
Definition item_names (w : widgets) : list string :=
  keys (save_uploaded_files (uploaded_files w)).

(** The previous feedback [main] works with: what the loader returns, or the
    empty list when no file was given. *)
Definition loaded_feedback (w : widgets) : list value :=
  match feedback_upload w with
  | Some feedback_file => fst (load_previous_feedback feedback_file)
  | None => []
  end.

(** A first run of the page with the widgets [w] on a fresh session, then
    any number of calls of the submit handler. *)
Inductive reachable (shuffle : list pair_t -> list pair_t) (w : widgets)
  : session_state -> Prop :=
| reach_first_run (shown : list message) (st : session_state) :
    main shuffle w (initialize_session_state None) = (Ok shown, st) ->
    reachable shuffle w st
| reach_submission (s : Q) (r : result bool) (st st' : session_state) :
    reachable shuffle w st ->
    handle_submission s st = (r, st') ->
    reachable shuffle w st'.

(** A feedback entry as the page writes it: a judgment with a score. *)
Definition is_rating (f : value) : bool :=
  is_judgment f &&
  match getitem f "similarity_score" with
  | Ok _ => true
  | Raise _ => false
  end.

(** Prior feedback that fits an item set: every entry is a judgment of two
    different items of the set, and no two entries are judgments of the same
    pair, in either order. *)
Definition fits_item_set (file_names : list string) (prior : list value) : Prop :=
  exists ps : list pair_t,
    map judged_pair prior = map Some ps /\
    (forall a b, In (a, b) ps -> In a file_names /\ In b file_names /\ a <> b) /\
    ForallOrdPairs (fun p q => same_pair p q = false) ps.

(** A resumed session whose feedback file rates a pair of other songs. *)
Definition foreign_resume : widgets :=
  mk_widgets abc_uploads
             (Some (json_dumps (VList [feedback_entry ("x.wav", "y.wav")%string (5 # 10)])))
             5 false.

(** A resumed session whose feedback file rates (b, a). *)
Definition ba_resume : widgets :=
  mk_widgets abc_uploads
             (Some (json_dumps (VList [feedback_entry ("b.wav", "a.wav")%string (4 # 10)])))
             5 false.

(** The widgets of a session resumed from the document [doc], with the
    slider and the button as the page first shows them. *)
Definition resume_with (uploads : list uploaded_file) (doc : json_text) : widgets :=
  mk_widgets uploads (Some doc) 5 false.

(** The session [activate] leaves, given what the loader returned. *)
Definition activated (w : widgets) (st : session_state) (queue : list pair_t)
    (i : nat) : session_state :=
  mk_session (if truthy (loaded_feedback w) then loaded_feedback w else feedback st)
             queue i (save_uploaded_files (uploaded_files w)).

(** The session resumed with [ba_resume], shuffled by reversal, after one
    rating. *)
Definition ba_resumed : session_state :=
  mk_session [feedback_entry ("b.wav", "a.wav")%string (4 # 10);
              feedback_entry ("b.wav", "c.wav")%string (7 # 10)]
             [("b.wav", "c.wav"); ("a.wav", "c.wav")]%string 1 abc_audio.

(** ** Vocabulary of the further properties *)

(** The exception a feedback entry makes [generate_pairs] raise, if any:
    [TypeError] for an entry that is not a dict, [KeyError] for a dict
    without one of the two song keys, [TypeError] for a song that is a list
    or a dict. *)
Definition entry_error (f : value) : option exn :=
  match f with
  | VDict items =>
      match dict_get items "song_a", dict_get items "song_b" with
      | Some a, Some b => if hashable a && hashable b then None else Some TypeError
      | _, _ => Some KeyError
      end
  | _ => Some TypeError
  end.

(** The position and the song of a pair in the list of names. *)
Definition at_positions (file_names : list string) (i j : nat) (p : pair_t) : Prop :=
  i < j /\ nth_error file_names i = Some (fst p) /\ nth_error file_names j = Some (snd p).

(** The loop of [save_uploaded_files], from any dict. *)
Definition save_into (audio : list (string * list Byte.byte))
    (ufs : list uploaded_file) : list (string * list Byte.byte) :=
  fold_left (fun audio f => dict_set audio (name f) (content f)) ufs audio.

(** What the loader makes of one entry of the file: nothing when the entry
    passes, else the error shown.  A dict passes with the three keys,
    whatever their values; a string passes when the three key names occur
    in it, a list when they are among its elements; [None], booleans and
    numbers end in the handler of any exception. *)
Definition entry_verdict (entry : value) : option message :=
  match entry with
  | VDict items =>
      if forallb (dict_has items) required_keys then None else Some ErrorMissingFields
  | VStr s =>
      if forallb (fun key => is_substring key s) required_keys
      then None else Some ErrorMissingFields
  | VList l =>
      if forallb (fun key => existsb (str_eq key) l) required_keys
      then None else Some ErrorMissingFields
  | VNone | VBool _ | VNum _ => Some (ErrorLoading TypeError)
  end.

(** Runs of the page one after the other, each with its widgets and its
    shuffle; a run that raises leaves the store as it was at that point. *)
Fixpoint main_runs (runs : list ((list pair_t -> list pair_t) * widgets))
    (st : session_state) : session_state :=
  match runs with
  | [] => st
  | (shuffle, w) :: rest => main_runs rest (snd (main shuffle w st))
  end.

(** How many entries of a feedback list are judgments of a pair, in either
    order. *)
Definition judgments_of (fs : list value) (p : pair_t) : nat :=
  length (filter (fun f => match judged_pair f with
                           | Some q => same_pair p q
                           | None => false
                           end) fs).

(** ** Sessions installed on any earlier session *)

(** The branch of [main] for changed file names, run on the session [st0]
    and returning, then any number of calls of the submit handler. *)
Inductive installed (shuffle : list pair_t -> list pair_t) (w : widgets)
    (st0 : session_state) : session_state -> Prop :=
| installed_activated (shown : list message) (st : session_state) :
    activate shuffle w st0 = (Ok shown, st) ->
    installed shuffle w st0 st
| installed_submission (s : Q) (r : result bool) (st st' : session_state) :
    installed shuffle w st0 st ->
    handle_submission s st = (r, st') ->
    installed shuffle w st0 st'.

(** A change of files without a feedback file: a.wav, b.wav and d.wav. *)
Definition abd_change : widgets :=
  mk_widgets [mk_upload "a.wav" []; mk_upload "b.wav" []; mk_upload "d.wav" []]
             None 5 false.

(** ** The download as a text *)

(** The download button, with [json.dumps] as the library has it: a
    function [dumps] from the value to the text of the file. *)
Definition download {text : Type} (dumps : value -> text) (st : session_state)
  : option text :=
  if truthy (feedback st) then Some (dumps (VList (feedback st))) else None.

(** A text given back as an upload: what [json.loads], a function [loads]
    on texts, makes of it. *)
Definition uploaded_text {text : Type} (loads : text -> result value) (t : text)
  : json_text :=
  match loads t with
  | Ok v => Encoded v
  | Raise UnicodeDecodeError => NotText
  | Raise _ => NotJSON
  end.

(** * Properties *)

(** ** The enumeration of pairs *)

Lemma map_nth_shift {B} (g : string -> B) (x : string) (l : list string) (a k : nat) :
  map (fun j => g (nth j (x :: l) EmptyString)) (seq (S a) k) =
  map (fun j => g (nth j l EmptyString)) (seq a k).
Proof.
  rewrite <- seq_shift, map_map. reflexivity.
Qed.

Lemma map_nth_all (l : list string) :
  map (fun j => nth j l EmptyString) (seq 0 (length l)) = l.
Proof.
  induction l as [|x l IH]; [reflexivity|].
  cbn [length seq map nth]. f_equal.
  exact (eq_trans (map_nth_shift (fun s => s) x l 0 (length l)) IH).
Qed.

(** The comprehension, read from the head of the list. *)
Lemma all_pairs_cons (x : string) (l : list string) :
  all_pairs (x :: l) = map (pair x) l ++ all_pairs l.
Proof.
  unfold all_pairs. cbn [length seq flat_map].
  f_equal.
  - cbn [nth Nat.add Nat.sub]. rewrite Nat.sub_0_r.
    etransitivity; [exact (map_nth_shift (pair x) x l 0 (length l))|].
    rewrite <- (map_map (fun j => nth j l EmptyString) (pair x)).
    now rewrite map_nth_all.
  - rewrite <- seq_shift, flat_map_concat_map, map_map, <- flat_map_concat_map.
    apply flat_map_ext. intros i.
    cbn [nth Nat.add Nat.sub].
    exact (map_nth_shift (pair (nth i l EmptyString)) x l (i + 1) (length l - (i + 1))).
Qed.

Lemma all_pairs_nil : all_pairs [] = [].
Proof. reflexivity. Qed.

Lemma in_all_pairs_cons (x : string) (l : list string) (a b : string) :
  In (a, b) (all_pairs (x :: l)) <-> (a = x /\ In b l) \/ In (a, b) (all_pairs l).
Proof.
  rewrite all_pairs_cons, in_app_iff, in_map_iff. split.
  - intros [[y [E Hy]] | H]; [left | now right].
    inversion E; subst; auto.
  - intros [[-> Hb] | H]; [left | now right].
    now exists b.
Qed.

Lemma in_all_pairs_members (l : list string) (a b : string) :
  In (a, b) (all_pairs l) -> In a l /\ In b l.
Proof.
  induction l as [|x l IH]; [now rewrite all_pairs_nil|].
  rewrite in_all_pairs_cons. intros [[-> Hb] | H].
  - split; [now left | now right].
  - destruct (IH H). split; now right.
Qed.

Lemma all_pairs_no_self (l : list string) (a b : string) :
  NoDup l -> In (a, b) (all_pairs l) -> a <> b.
Proof.
  induction 1 as [|x l Hx Hl IH]; [now rewrite all_pairs_nil|].
  rewrite in_all_pairs_cons. intros [[-> Hb] | H]; [|auto].
  intros ->. contradiction.
Qed.

Lemma all_pairs_one_orientation (l : list string) (a b : string) :
  NoDup l -> In (a, b) (all_pairs l) -> ~ In (b, a) (all_pairs l).
Proof.
  induction 1 as [|x l Hx Hl IH]; [now rewrite all_pairs_nil|].
  rewrite !in_all_pairs_cons. intros [[-> Hb] | H] [[-> Ha] | H'].
  - contradiction.
  - apply in_all_pairs_members in H'. destruct H'. contradiction.
  - apply in_all_pairs_members in H. destruct H. contradiction.
  - now apply IH in H.
Qed.

Lemma all_pairs_NoDup (l : list string) :
  NoDup l -> NoDup (all_pairs l).
Proof.
  induction 1 as [|x l Hx Hl IH]; [rewrite all_pairs_nil; constructor|].
  rewrite all_pairs_cons. apply NoDup_app; [| exact IH |].
  - apply NoDup_map_NoDup_ForallPairs; [|exact Hl].
    intros u v _ _ E. now inversion E.
  - intros [a b] Hin Hin'. apply in_map_iff in Hin. destruct Hin as [y [E _]].
    inversion E; subst. apply in_all_pairs_members in Hin'. destruct Hin'. contradiction.
Qed.

Lemma all_pairs_length_double (l : list string) :
  2 * length (all_pairs l) = length l * (length l - 1).
Proof.
  induction l as [|x l IH]; [reflexivity|].
  rewrite all_pairs_cons, length_app, length_map.
  change (length (x :: l)) with (S (length l)).
  generalize dependent (length (all_pairs l)). generalize (length l).
  intros n m IH. destruct n as [|n]; [lia|].
  replace (S (S n) - 1) with (S n) by lia.
  replace (S n - 1) with n in IH by lia. nia.
Qed.

Lemma all_pairs_length (l : list string) :
  length (all_pairs l) = length l * (length l - 1) / 2.
Proof.
  rewrite <- all_pairs_length_double, Nat.mul_comm, Nat.div_mul; lia.
Qed.

(** C1: for N >= 2 distinct identifiers and no prior judgment,
    [generate_pairs] returns N*(N-1)/2 pairs, none of them twice, none in
    both orientations, and none pairing an identifier with itself. *)
Theorem generate_pairs_complete (file_names : list string) :
  NoDup file_names ->
  2 <= length file_names ->
  exists pairs,
    generate_pairs file_names [] = Ok pairs /\
    length pairs = length file_names * (length file_names - 1) / 2 /\
    NoDup pairs /\
    (forall a b, In (a, b) pairs -> ~ In (b, a) pairs) /\
    (forall a b, In (a, b) pairs -> a <> b).
Proof.
  intros Hnd _. exists (all_pairs file_names). cbn [generate_pairs].
  split; [reflexivity|]. split; [apply all_pairs_length|].
  split; [now apply all_pairs_NoDup|].
  split; intros a b.
  - now apply all_pairs_one_orientation.
  - now apply all_pairs_no_self.
Qed.

Lemma generate_pairs_complete_witness :
  exists pairs,
    generate_pairs ["a.wav"; "b.wav"; "c.wav"]%string [] = Ok pairs /\
    length pairs = 3 /\
    NoDup pairs /\
    (forall a b, In (a, b) pairs -> ~ In (b, a) pairs) /\
    (forall a b, In (a, b) pairs -> a <> b).
Proof.
  apply (generate_pairs_complete ["a.wav"; "b.wav"; "c.wav"]%string).
  - repeat constructor; simpl; intuition discriminate.
  - simpl; lia.
Defined.

(** ** Exclusion of the judged pairs *)

Lemma comprehension_Forall2 {A B} (elt : A -> result B) (xs : list A) (ys : list B) :
  comprehension elt xs = Ok ys -> Forall2 (fun x y => elt x = Ok y) xs ys.
Proof.
  revert ys. induction xs as [|x xs IH]; intros ys; cbn [comprehension].
  - intros E. inversion E. constructor.
  - destruct (elt x) as [y|e] eqn:Ex; cbn [bind]; [|discriminate].
    destruct (comprehension elt xs) as [ys'|e]; cbn [bind]; [|discriminate].
    intros E. inversion E; subst. constructor; auto.
Qed.

Lemma comprehension_In {A B} (elt : A -> result B) (xs : list A) (ys : list B) (x : A) :
  comprehension elt xs = Ok ys -> In x xs -> exists y, elt x = Ok y /\ In y ys.
Proof.
  intros E. apply comprehension_Forall2 in E.
  induction E as [|x0 y0 xs ys E0 _ IH]; intros Hin; [contradiction|].
  destruct Hin as [->|Hin].
  - exists y0. split; [assumption | now left].
  - destruct (IH Hin) as [y [Ey Hy]]. exists y. split; [assumption | now right].
Qed.

Lemma comprehension_total {A B} (elt : A -> result B) (xs : list A) :
  (forall x, In x xs -> exists y, elt x = Ok y) ->
  exists ys, comprehension elt xs = Ok ys.
Proof.
  induction xs as [|x xs IH]; intros H; cbn [comprehension].
  - now exists [].
  - destruct (H x (or_introl eq_refl)) as [y ->].
    destruct IH as [ys ->]; [intros; apply H; now right|].
    now exists (y :: ys).
Qed.

Lemma comprehension_app {A B} (elt : A -> result B) (xs ys : list A) :
  comprehension elt (xs ++ ys) =
  (xs' <- comprehension elt xs ;;
   ys' <- comprehension elt ys ;;
   Ok (xs' ++ ys')).
Proof.
  induction xs as [|x xs IH]; cbn [comprehension app bind].
  - destruct (comprehension elt ys); reflexivity.
  - destruct (elt x) as [y|e]; cbn [bind]; [|reflexivity].
    rewrite IH.
    destruct (comprehension elt xs) as [xs'|e]; cbn [bind]; [|reflexivity].
    destruct (comprehension elt ys) as [ys'|e]; reflexivity.
Qed.

(** The branch [generate_pairs] takes on a feedback list that is not empty. *)
Lemma generate_pairs_nonempty (file_names : list string) (fs : list value) :
  fs <> [] ->
  generate_pairs file_names fs =
  (rated_ab <- comprehension (rated_tuple "song_a" "song_b") fs ;;
   rated_ba <- comprehension (rated_tuple "song_b" "song_a") fs ;;
   Ok (filter (fun pair => negb (pair_in (fst pair, snd pair) (rated_ab ++ rated_ba)))
              (all_pairs file_names))).
Proof.
  destruct fs; [congruence | reflexivity].
Qed.

Lemma judged_pair_fields (f : value) (a b : string) :
  judged_pair f = Some (a, b) ->
  getitem f "song_a" = Ok (VStr a) /\ getitem f "song_b" = Ok (VStr b).
Proof.
  unfold judged_pair.
  destruct (getitem f "song_a") as [[]|]; try discriminate.
  destruct (getitem f "song_b") as [[]|]; try discriminate.
  intros E. now inversion E.
Qed.

Lemma rated_tuple_judgment (f : value) (a b : string) :
  judged_pair f = Some (a, b) ->
  rated_tuple "song_a" "song_b" f = Ok (VStr a, VStr b) /\
  rated_tuple "song_b" "song_a" f = Ok (VStr b, VStr a).
Proof.
  intros H. apply judged_pair_fields in H. destruct H as [Ha Hb].
  unfold rated_tuple. now rewrite Ha, Hb.
Qed.

Lemma pair_in_spec (p : pair_t) (rated : list (value * value)) :
  pair_in p rated = true <-> In (VStr (fst p), VStr (snd p)) rated.
Proof.
  unfold pair_in. rewrite existsb_exists. split.
  - intros [[x y] [Hin Ht]]. apply andb_true_iff in Ht. destruct Ht as [Hx Hy].
    destruct x; try discriminate. destruct y; try discriminate.
    cbn in Hx, Hy. apply String.eqb_eq in Hx, Hy. now subst.
  - intros Hin. eexists; split; [exact Hin|]. cbn. now rewrite !String.eqb_refl.
Qed.

Lemma judgments_rated (fs : list value) :
  forallb is_judgment fs = true ->
  exists rated_ab rated_ba,
    comprehension (rated_tuple "song_a" "song_b") fs = Ok rated_ab /\
    comprehension (rated_tuple "song_b" "song_a") fs = Ok rated_ba.
Proof.
  intros H. rewrite forallb_forall in H.
  assert (J : forall f, In f fs -> exists a b, judged_pair f = Some (a, b)).
  { intros f Hf. apply H in Hf. unfold is_judgment in Hf.
    destruct (judged_pair f) as [[a b]|]; [now exists a, b | discriminate]. }
  destruct (comprehension_total (rated_tuple "song_a" "song_b") fs) as [ra Ea].
  { intros f Hf. destruct (J f Hf) as [a [b E]].
    apply rated_tuple_judgment in E. destruct E as [E _]. eauto. }
  destruct (comprehension_total (rated_tuple "song_b" "song_a") fs) as [rb Eb].
  { intros f Hf. destruct (J f Hf) as [a [b E]].
    apply rated_tuple_judgment in E. destruct E as [_ E]. eauto. }
  eauto.
Qed.

(** Whatever the entries are, a list [generate_pairs] returns holds no pair an
    entry is a judgment of, in either order. *)
Lemma generate_pairs_excludes (file_names : list string) (fs : list value)
    (pairs : list pair_t) (f : value) (a b : string) :
  generate_pairs file_names fs = Ok pairs ->
  In f fs -> judged_pair f = Some (a, b) ->
  ~ In (a, b) pairs /\ ~ In (b, a) pairs.
Proof.
  intros E Hf Hj.
  rewrite generate_pairs_nonempty in E by (intros ->; contradiction).
  destruct (comprehension _ fs) as [ra|] eqn:Ea; cbn [bind] in E; [|discriminate].
  destruct (comprehension (rated_tuple "song_b" "song_a") fs) as [rb|] eqn:Eb;
    cbn [bind] in E; [|discriminate].
  inversion E; subst pairs; clear E.
  destruct (rated_tuple_judgment _ _ _ Hj) as [Tab Tba].
  destruct (comprehension_In _ _ _ _ Ea Hf) as [t [Et Ht]].
  destruct (comprehension_In _ _ _ _ Eb Hf) as [u [Eu Hu]].
  rewrite Tab in Et. rewrite Tba in Eu. inversion Et; inversion Eu; subst t u.
  split; intros Hin; apply filter_In in Hin; destruct Hin as [_ Hin];
    apply negb_true_iff in Hin;
    apply not_true_iff_false in Hin; apply Hin; apply pair_in_spec;
    cbn [fst snd]; apply in_or_app; auto.
Qed.

(** C2: [generate_pairs] returns a list on every list of judgments, and that
    list holds no pair that has a judgment in the list, neither as (A,B) nor
    as (B,A). *)
Theorem generate_pairs_excludes_judged (file_names : list string) (prior : list value) :
  forallb is_judgment prior = true ->
  exists pairs,
    generate_pairs file_names prior = Ok pairs /\
    forall f a b, In f prior -> judged_pair f = Some (a, b) ->
                  ~ In (a, b) pairs /\ ~ In (b, a) pairs.
Proof.
  intros H.
  assert (T : exists pairs, generate_pairs file_names prior = Ok pairs).
  { destruct prior as [|f0 rest]; [now eexists|].
    rewrite generate_pairs_nonempty by discriminate.
    destruct (judgments_rated _ H) as [ra [rb [-> ->]]]. cbn [bind]. now eexists. }
  destruct T as [pairs E]. exists pairs. split; [exact E|].
  intros f a b. exact (generate_pairs_excludes file_names prior pairs f a b E).
Qed.

Lemma generate_pairs_excludes_judged_witness :
  exists pairs,
    generate_pairs ["a.wav"; "b.wav"; "c.wav"]%string
                   [feedback_entry ("b.wav", "a.wav")%string (4 # 10)] = Ok pairs /\
    forall f a b,
      In f [feedback_entry ("b.wav", "a.wav")%string (4 # 10)] ->
      judged_pair f = Some (a, b) ->
      ~ In (a, b) pairs /\ ~ In (b, a) pairs.
Proof.
  apply (generate_pairs_excludes_judged ["a.wav"; "b.wav"; "c.wav"]%string
           [feedback_entry ("b.wav", "a.wav")%string (4 # 10)]).
  reflexivity.
Defined.

(** ** Idempotence of the exclusion *)

Lemma pair_in_app_dup (p : pair_t) (ra rb : list (value * value)) (t u : value * value) :
  In t ra -> In u rb ->
  pair_in p ((ra ++ [t]) ++ (rb ++ [u])) = pair_in p (ra ++ rb).
Proof.
  intros Ht Hu. apply eq_true_iff_eq. rewrite !pair_in_spec, !in_app_iff.
  cbn [In]. intuition (subst; auto).
Qed.

(** C9: a prior judgment appended a second time leaves the result of
    [generate_pairs] as it was. *)
Theorem generate_pairs_duplicate_prior (file_names : list string)
    (prior : list value) (j : value) :
  In j prior ->
  generate_pairs file_names (prior ++ [j]) = generate_pairs file_names prior.
Proof.
  intros Hj.
  rewrite (generate_pairs_nonempty file_names (prior ++ [j]))
    by (intros E; apply app_eq_nil in E; destruct E; discriminate).
  rewrite (generate_pairs_nonempty file_names prior)
    by (intros ->; contradiction).
  rewrite !comprehension_app.
  destruct (comprehension (rated_tuple "song_a" "song_b") prior) as [ra|e] eqn:Ea;
    cbn [bind]; [|reflexivity].
  destruct (comprehension_In _ _ _ _ Ea Hj) as [t [Et Ht]].
  cbn [comprehension]. rewrite Et. cbn [bind].
  destruct (comprehension (rated_tuple "song_b" "song_a") prior) as [rb|e] eqn:Eb;
    cbn [bind]; [|reflexivity].
  destruct (comprehension_In _ _ _ _ Eb Hj) as [u [Eu Hu]].
  rewrite Eu. cbn [bind]. f_equal.
  apply filter_ext. intros p. f_equal. now apply pair_in_app_dup.
Qed.

Lemma generate_pairs_duplicate_prior_witness :
  generate_pairs ["a.wav"; "b.wav"; "c.wav"]%string
    ([feedback_entry ("a.wav", "b.wav")%string (4 # 10)] ++
     [feedback_entry ("a.wav", "b.wav")%string (4 # 10)]) =
  generate_pairs ["a.wav"; "b.wav"; "c.wav"]%string
    [feedback_entry ("a.wav", "b.wav")%string (4 # 10)].
Proof.
  apply generate_pairs_duplicate_prior. now left.
Defined.

(** ** The submit operation *)

Lemma handle_submission_empty (s : Q) (st : session_state) :
  remaining_pairs st = [] -> handle_submission s st = (Ok false, st).
Proof.
  intros E. unfold handle_submission, app_bind, read. rewrite E. reflexivity.
Qed.

Lemma handle_submission_current (s : Q) (st : session_state) (p : pair_t) :
  nth_error (remaining_pairs st) (current_pair_index st) = Some p ->
  handle_submission s st =
  (Ok true, mk_session (feedback st ++ [feedback_entry p s]) (remaining_pairs st)
                       (current_pair_index st + 1) (audio_files st)).
Proof.
  intros E. unfold handle_submission, app_bind, read, lift, index.
  destruct (remaining_pairs st) as [|p0 rest] eqn:R.
  - destruct (current_pair_index st); discriminate.
  - cbn [truthy]. rewrite E. cbn. now rewrite R.
Qed.

Lemma handle_submission_past_end (s : Q) (st : session_state) :
  remaining_pairs st <> [] ->
  length (remaining_pairs st) <= current_pair_index st ->
  handle_submission s st = (Raise IndexError, st).
Proof.
  intros N L. apply nth_error_None in L.
  unfold handle_submission, app_bind, read, lift, index.
  destruct (remaining_pairs st) as [|p0 rest] eqn:R; [congruence|].
  cbn [truthy]. now rewrite L.
Qed.

Lemma active_current (st : session_state) :
  active st ->
  exists p, nth_error (remaining_pairs st) (current_pair_index st) = Some p.
Proof.
  unfold active. intros L.
  destruct (nth_error (remaining_pairs st) (current_pair_index st)) as [p|] eqn:E.
  - now exists p.
  - apply nth_error_None in E. lia.
Qed.

(** The three outcomes of [handle_submission], by the state it finds. *)
Lemma handle_submission_cases (s : Q) (st : session_state) :
  (remaining_pairs st = [] /\ handle_submission s st = (Ok false, st)) \/
  (exists p, nth_error (remaining_pairs st) (current_pair_index st) = Some p /\
             handle_submission s st =
             (Ok true, mk_session (feedback st ++ [feedback_entry p s]) (remaining_pairs st)
                                  (current_pair_index st + 1) (audio_files st))) \/
  (remaining_pairs st <> [] /\
   length (remaining_pairs st) <= current_pair_index st /\
   handle_submission s st = (Raise IndexError, st)).
Proof.
  destruct (remaining_pairs st) as [|p0 rest] eqn:R.
  - left. split; [reflexivity | now apply handle_submission_empty].
  - right.
    destruct (nth_error (remaining_pairs st) (current_pair_index st)) as [p|] eqn:E.
    + left. exists p. rewrite <- R. split; [assumption | now apply handle_submission_current].
    + right. apply nth_error_None in E. rewrite <- R.
      assert (N : remaining_pairs st <> []) by (rewrite R; discriminate).
      repeat split; auto. now apply handle_submission_past_end.
Qed.

(** C10: a submission that succeeds appends one entry, made of the current
    pair in its stored order and of the submitted score, moves the index by
    one, and leaves the queue and the audio files as they were. *)
Theorem handle_submission_frame (s : Q) (st st' : session_state) :
  handle_submission s st = (Ok true, st') ->
  exists current_pair entry,
    nth_error (remaining_pairs st) (current_pair_index st) = Some current_pair /\
    feedback st' = feedback st ++ [entry] /\
    getitem entry "song_a" = Ok (VStr (fst current_pair)) /\
    getitem entry "song_b" = Ok (VStr (snd current_pair)) /\
    getitem entry "similarity_score" = Ok (VNum s) /\
    current_pair_index st' = current_pair_index st + 1 /\
    remaining_pairs st' = remaining_pairs st /\
    audio_files st' = audio_files st.
Proof.
  intros H.
  destruct (handle_submission_cases s st) as [[_ E] | [[p [Hp E]] | [_ [_ E]]]];
    rewrite E in H; try discriminate.
  inversion H; subst st'; clear H.
  exists p, (feedback_entry p s). cbn. repeat split; auto.
Qed.

Lemma handle_submission_frame_witness :
  handle_submission (7 # 10) abc_start = (Ok true, abc_after_one) /\
  exists current_pair entry,
    nth_error (remaining_pairs abc_start) (current_pair_index abc_start) = Some current_pair /\
    feedback abc_after_one = feedback abc_start ++ [entry] /\
    getitem entry "song_a" = Ok (VStr (fst current_pair)) /\
    getitem entry "song_b" = Ok (VStr (snd current_pair)) /\
    getitem entry "similarity_score" = Ok (VNum (7 # 10)) /\
    current_pair_index abc_after_one = current_pair_index abc_start + 1 /\
    remaining_pairs abc_after_one = remaining_pairs abc_start /\
    audio_files abc_after_one = audio_files abc_start.
Proof.
  split; [reflexivity|].
  exact (handle_submission_frame (7 # 10) abc_start abc_after_one eq_refl).
Defined.

(** ** Consuming a queue *)

Lemma submit_all_from (rest : list pair_t) :
  forall (done : list pair_t) (scores : list Q) (fb : list value)
         (audio : list (string * list Byte.byte)),
    length scores = length rest ->
    submit_all scores (mk_session fb (done ++ rest) (length done) audio) =
    (Ok (repeat true (length rest)),
     mk_session (fb ++ entries_of rest scores) (done ++ rest)
                (length done + length rest) audio).
Proof.
  induction rest as [|p rest IH]; intros done scores fb audio L.
  - destruct scores; [|discriminate].
    unfold entries_of, ret. cbn [submit_all combine map length repeat].
    now rewrite !app_nil_r, Nat.add_0_r.
  - destruct scores as [|s scores]; [discriminate|].
    cbn [submit_all]. unfold app_bind at 1.
    rewrite (handle_submission_current s _ p)
      by (cbn; now rewrite nth_error_app2, Nat.sub_diag by lia).
    cbn [feedback remaining_pairs current_pair_index audio_files].
    unfold app_bind at 1.
    replace (done ++ p :: rest) with ((done ++ [p]) ++ rest) by now rewrite <- app_assoc.
    replace (length done + 1) with (length (done ++ [p])) by now rewrite length_app.
    rewrite IH by (cbn in L; lia).
    unfold ret. cbn [repeat length]. f_equal. f_equal.
    + unfold entries_of. cbn [combine map fst snd]. now rewrite <- app_assoc.
    + rewrite length_app. cbn. lia.
Qed.

Lemma judged_pair_entry (p : pair_t) (s : Q) :
  judged_pair (feedback_entry p s) = Some p.
Proof. now destruct p. Qed.

Lemma entries_of_pairs (ps : list pair_t) :
  forall ss, length ss = length ps -> map judged_pair (entries_of ps ss) = map Some ps.
Proof.
  unfold entries_of.
  induction ps as [|p ps IH]; intros [|s ss] L; try discriminate; [reflexivity|].
  cbn [combine map fst snd]. rewrite judged_pair_entry. f_equal. apply IH.
  cbn in L. lia.
Qed.

Lemma entries_of_length (ps : list pair_t) (ss : list Q) :
  length ss = length ps -> length (entries_of ps ss) = length ps.
Proof.
  intros L. unfold entries_of. rewrite length_map, length_combine. lia.
Qed.

(** C4: from a freshly activated session, as many submissions as the queue
    is long all succeed and leave the session complete, the feedback longer
    by the length of the queue, and each pair of the queue judged once among
    the appended entries. *)
Theorem submit_all_consumes_queue (queue : list pair_t) (scores : list Q)
    (fb : list value) (audio : list (string * list Byte.byte)) :
  NoDup queue ->
  length scores = length queue ->
  exists st' appended,
    submit_all scores (mk_session fb queue 0 audio) =
      (Ok (repeat true (length queue)), st') /\
    remaining_pairs st' = queue /\
    current_pair_index st' = length queue /\
    feedback st' = fb ++ appended /\
    length (feedback st') = length fb + length queue /\
    map judged_pair appended = map Some queue /\
    NoDup (map judged_pair appended).
Proof.
  intros Hnd L.
  exists (mk_session (fb ++ entries_of queue scores) queue (length queue) audio),
         (entries_of queue scores).
  split; [exact (submit_all_from queue [] scores fb audio L)|].
  cbn [remaining_pairs current_pair_index feedback].
  rewrite length_app, entries_of_length, entries_of_pairs by assumption.
  repeat split.
  apply NoDup_map_NoDup_ForallPairs; [|exact Hnd].
  intros x y _ _ E. now inversion E.
Qed.

Lemma submit_all_consumes_queue_witness :
  exists st' appended,
    submit_all [7 # 10; 2 # 10; 5 # 10] (mk_session [] abc_queue 0 abc_audio) =
      (Ok (repeat true (length abc_queue)), st') /\
    remaining_pairs st' = abc_queue /\
    current_pair_index st' = length abc_queue /\
    feedback st' = [] ++ appended /\
    length (feedback st') = length (@nil value) + length abc_queue /\
    map judged_pair appended = map Some abc_queue /\
    NoDup (map judged_pair appended).
Proof.
  apply (submit_all_consumes_queue abc_queue [7 # 10; 2 # 10; 5 # 10] [] abc_audio).
  - repeat constructor; simpl; intuition discriminate.
  - reflexivity.
Defined.

(** ** Scores out of range *)

Lemma slider_range (steps : nat) : (0 <= slider steps /\ slider steps <= 1)%Q.
Proof.
  unfold slider, Qle. cbn [Qnum Qden]. split; lia.
Qed.

(** What a run of [rate] can do to the feedback: nothing, or append the
    current pair with the value of the slider. *)
Lemma rate_feedback (w : widgets) (st st' : session_state) (r : result (list message)) :
  rate w st = (r, st') ->
  st' = st \/
  exists p, nth_error (remaining_pairs st) (current_pair_index st) = Some p /\
            st' = mk_session (feedback st ++ [feedback_entry p (slider (slider_steps w))])
                             (remaining_pairs st) (current_pair_index st + 1)
                             (audio_files st).
Proof.
  unfold rate, app_bind, read, lift, ret, index.
  destruct (length (audio_files st) <? 2).
  { intros E; inversion E; now left. }
  destruct (current_pair_index st <? length (remaining_pairs st)).
  2: { intros E; inversion E; now left. }
  destruct (nth_error (remaining_pairs st) (current_pair_index st)) as [p|] eqn:Hp.
  2: { intros E; inversion E; now left. }
  destruct (audio_of (audio_files st) (fst p)).
  2: { intros E; inversion E; now left. }
  destruct (audio_of (audio_files st) (snd p)).
  2: { intros E; inversion E; now left. }
  destruct (submit_clicked w).
  - rewrite (handle_submission_current _ _ p Hp).
    intros E; inversion E. right. now exists p.
  - intros E; inversion E; now left.
Qed.

(** C5, as the code has it: [handle_submission] accepts every score on an
    active session, in range or not, and records it; the range is kept by
    the slider alone, so that a rating made through the page appends a score
    between 0 and 1. *)
Theorem handle_submission_any_score (s : Q) (st : session_state) :
  active st ->
  (exists p,
     nth_error (remaining_pairs st) (current_pair_index st) = Some p /\
     handle_submission s st =
     (Ok true, mk_session (feedback st ++ [feedback_entry p s]) (remaining_pairs st)
                          (current_pair_index st + 1) (audio_files st))) /\
  (forall w r st',
     rate w st = (r, st') ->
     feedback st' = feedback st \/
     exists p s', (0 <= s' /\ s' <= 1)%Q /\
                  feedback st' = feedback st ++ [feedback_entry p s']).
Proof.
  intros A. split.
  - destruct (active_current st A) as [p Hp]. exists p.
    split; [assumption | now apply handle_submission_current].
  - intros w r st' E. apply rate_feedback in E.
    destruct E as [-> | [p [_ ->]]]; [now left | right].
    exists p, (slider (slider_steps w)). split; [apply slider_range | reflexivity].
Qed.

Lemma handle_submission_any_score_witness :
  (exists p,
     nth_error (remaining_pairs abc_start) (current_pair_index abc_start) = Some p /\
     handle_submission (3 # 2) abc_start =
     (Ok true, mk_session (feedback abc_start ++ [feedback_entry p (3 # 2)])
                          (remaining_pairs abc_start)
                          (current_pair_index abc_start + 1) (audio_files abc_start))) /\
  (forall w r st',
     rate w abc_start = (r, st') ->
     feedback st' = feedback abc_start \/
     exists p s', (0 <= s' /\ s' <= 1)%Q /\
                  feedback st' = feedback abc_start ++ [feedback_entry p s']).
Proof.
  apply (handle_submission_any_score (3 # 2) abc_start).
  unfold active. simpl. lia.
Defined.

(** C5, as stated, fails: on an active session a score of 1.5, and one of
    -0.5, are accepted and recorded. *)
Lemma out_of_range_score_recorded :
  active abc_start /\
  (1 < 3 # 2)%Q /\
  handle_submission (3 # 2) abc_start =
    (Ok true, mk_session (entries_of abc_queue [3 # 2]) abc_queue 1 abc_audio) /\
  (-1 # 2 < 0)%Q /\
  handle_submission (-1 # 2) abc_start =
    (Ok true, mk_session (entries_of abc_queue [-1 # 2]) abc_queue 1 abc_audio).
Proof.
  unfold active. simpl. repeat split; try reflexivity; lia.
Qed.

(** ** Submitting without a current pair *)

(** On an empty queue the handler returns [False] and changes nothing. *)
Lemma handle_submission_empty_queue (s : Q) (fb : list value) (i : nat)
    (audio : list (string * list Byte.byte)) :
  handle_submission s (mk_session fb [] i audio) = (Ok false, mk_session fb [] i audio).
Proof. reflexivity. Qed.

(** The page asks [current_pair_index < len(remaining_pairs)] before it
    shows a pair or a submit button: without a current pair it neither
    raises nor changes the session. *)
Lemma rate_without_current_pair (w : widgets) (st : session_state) :
  ~ active st -> exists shown, rate w st = (Ok shown, st).
Proof.
  unfold active. intros N.
  unfold rate, app_bind, read, lift, ret.
  destruct (length (audio_files st) <? 2); [now eexists|].
  destruct (Nat.ltb_spec (current_pair_index st) (length (remaining_pairs st)));
    [contradiction | now eexists].
Qed.




(** ** Loading a previous feedback file *)

Lemma load_not_json : load_previous_feedback NotJSON = ([], [ErrorInvalidJSON]).
Proof. reflexivity. Qed.

Lemma load_not_text :
  load_previous_feedback NotText = ([], [ErrorLoading UnicodeDecodeError]).
Proof. reflexivity. Qed.

Lemma load_not_a_list (v : value) :
  (forall l, v <> VList l) ->
  load_previous_feedback (Encoded v) = ([], [ErrorExpectedList]).
Proof.
  intros N. destruct v; try reflexivity. now destruct (N l).
Qed.

Lemma all_of_dict (items : list (string * value)) :
  all_of (contains (VDict items)) required_keys =
  Ok (dict_has items "song_a" && dict_has items "song_b" &&
      dict_has items "similarity_score").
Proof.
  cbn. destruct (dict_has items "song_a"); [|reflexivity].
  destruct (dict_has items "song_b"); [|reflexivity].
  now destruct (dict_has items "similarity_score").
Qed.

Lemma entries_pass_dict_missing (entries : list value) (items : list (string * value))
    (key : string) :
  In (VDict items) entries -> In key required_keys -> dict_has items key = false ->
  entries_pass entries <> Ok true.
Proof.
  intros Hin Hk Hmiss.
  induction entries as [|e rest IH]; [contradiction|].
  cbn [entries_pass]. destruct Hin as [-> | Hin].
  - rewrite all_of_dict.
    assert (F : dict_has items "song_a" && dict_has items "song_b" &&
                dict_has items "similarity_score" = false).
    { cbn in Hk. destruct Hk as [<- | [<- | [<- | []]]]; rewrite Hmiss;
        now rewrite ?andb_false_r. }
    rewrite F. cbn. discriminate.
  - destruct (all_of (contains e) required_keys) as [[|]|]; cbn [bind];
      [auto | discriminate | discriminate].
Qed.

Lemma load_rejected (entries : list value) :
  entries_pass entries <> Ok true ->
  exists shown, load_previous_feedback (Encoded (VList entries)) = ([], [shown]).
Proof.
  intros N. unfold load_previous_feedback, load_previous_feedback_try.
  cbn [json_loads bind].
  destruct (entries_pass entries) as [[|]|e]; cbn [bind].
  - congruence.
  - now eexists.
  - destruct e; now eexists.
Qed.

(** A dict entry without one of the three keys makes the loader show an
    error and return the empty list, wherever it stands in the file. *)
Lemma load_dict_missing_field (entries : list value) (items : list (string * value))
    (key : string) :
  In (VDict items) entries -> In key required_keys -> dict_has items key = false ->
  exists shown, load_previous_feedback (Encoded (VList entries)) = ([], [shown]).
Proof.
  intros. apply load_rejected. eapply entries_pass_dict_missing; eauto.
Qed.

(** The loader returns all the entries of the file or none. *)
Lemma load_all_or_nothing (feedback_file : json_text) :
  fst (load_previous_feedback feedback_file) = [] \/
  feedback_file = Encoded (VList (fst (load_previous_feedback feedback_file))).
Proof.
  unfold load_previous_feedback, load_previous_feedback_try.
  destruct feedback_file as [| |v]; cbn [json_loads bind]; [now left | now left |].
  destruct v; try (now left).
  destruct (entries_pass l) as [[|]|e]; cbn [bind fst]; [now right | now left |].
  destruct e; now left.
Qed.

(** C7, the case the code misses: an entry that is a string has no field at
    all, yet [key in entry] is then a substring test, and a string that
    spells the three key names passes it.  The file is returned as loaded,
    with no error shown. *)
Theorem load_accepts_string_entry :
  load_previous_feedback (Encoded (VList [VStr "song_a song_b similarity_score"])) =
  ([VStr "song_a song_b similarity_score"], []).
Proof. reflexivity. Qed.

(** ** The stored audio files *)

Lemma dict_set_keys_in {V} (items : list (string * V)) (k : string) (v : V) (x : string) :
  In x (keys (dict_set items k v)) <-> x = k \/ In x (keys items).
Proof.
  unfold keys. induction items as [|[k0 w] rest IH]; cbn [dict_set map In fst].
  - intuition.
  - destruct (String.eqb_spec k k0) as [-> | N]; cbn [map In fst].
    + intuition.
    + rewrite IH. intuition.
Qed.

Lemma dict_set_keys_NoDup {V} (items : list (string * V)) (k : string) (v : V) :
  NoDup (keys items) -> NoDup (keys (dict_set items k v)).
Proof.
  induction items as [|[k0 w] rest IH]; cbn [dict_set keys map fst]; intros H.
  - repeat constructor. intros [].
  - destruct (String.eqb_spec k k0) as [-> | N]; [exact H|].
    inversion H as [|? ? Hk0 Hrest]; subst. cbn [map fst]. constructor.
    + intros Hin. apply (dict_set_keys_in rest k v k0) in Hin.
      destruct Hin as [E | Hin]; [now apply N | now apply Hk0].
    + now apply IH.
Qed.

Lemma save_uploaded_files_NoDup (ufs : list uploaded_file) :
  NoDup (keys (save_uploaded_files ufs)).
Proof.
  unfold save_uploaded_files.
  assert (G : forall audio : list (string * list Byte.byte),
             NoDup (keys audio) ->
             NoDup (keys (fold_left (fun audio f => dict_set audio (name f) (content f))
                                    ufs audio))).
  { induction ufs as [|f ufs IH]; intros audio H; cbn [fold_left]; [exact H|].
    apply IH. now apply dict_set_keys_NoDup. }
  apply G. constructor.
Qed.

(** ** What the builder keeps, in the words of the judgments *)

Lemma same_pair_spec (p q : pair_t) :
  same_pair p q = true <-> p = q \/ p = (snd q, fst q).
Proof.
  destruct p as [a b], q as [c d]. unfold same_pair. cbn [fst snd].
  rewrite orb_true_iff, !andb_true_iff, !String.eqb_eq.
  split; intros [H | H]; [left | right | left | right];
    try (destruct H; now subst); now inversion H.
Qed.

Lemma same_pair_sym (p q : pair_t) : same_pair p q = same_pair q p.
Proof.
  apply eq_true_iff_eq. rewrite !same_pair_spec.
  destruct p as [a b], q as [c d]. cbn [fst snd].
  split; intros [H | H]; inversion H; subst; auto.
Qed.

Lemma same_pair_trans (p q r : pair_t) :
  same_pair p q = true -> same_pair q r = true -> same_pair p r = true.
Proof.
  rewrite !same_pair_spec.
  destruct p as [a b], q as [c d], r as [e f]. cbn [fst snd].
  intros [H | H] [H' | H']; inversion H; inversion H'; subst; auto.
Qed.

Lemma comprehension_In_inv {A B} (elt : A -> result B) (xs : list A) (ys : list B) (y : B) :
  comprehension elt xs = Ok ys -> In y ys -> exists x, In x xs /\ elt x = Ok y.
Proof.
  intros E. apply comprehension_Forall2 in E.
  induction E as [|x0 y0 xs ys E0 _ IH]; intros Hin; [contradiction|].
  destruct Hin as [<- | Hin].
  - exists x0. split; [now left | assumption].
  - destruct (IH Hin) as [x [Hx Ex]]. exists x. split; [now right | assumption].
Qed.

Lemma judged_in_spec (fs : list value) (p : pair_t) :
  judged_in fs p = true <->
  exists f q, In f fs /\ judged_pair f = Some q /\ same_pair p q = true.
Proof.
  unfold judged_in. rewrite existsb_exists. split.
  - intros [f [Hf H]]. destruct (judged_pair f) as [q|] eqn:E; [|discriminate].
    now exists f, q.
  - intros [f [q [Hf [E H]]]]. exists f. now rewrite E.
Qed.

Lemma is_judgment_pair (fs : list value) (f : value) :
  forallb is_judgment fs = true -> In f fs -> exists q, judged_pair f = Some q.
Proof.
  intros H Hf. rewrite forallb_forall in H. apply H in Hf.
  unfold is_judgment in Hf. destruct (judged_pair f) as [q|]; [now exists q | discriminate].
Qed.

(** On a list of judgments the set test of [generate_pairs] says whether the
    pair has a judgment, in either order. *)
Lemma pair_in_judged (fs : list value) (ra rb : list (value * value)) (p : pair_t) :
  forallb is_judgment fs = true ->
  comprehension (rated_tuple "song_a" "song_b") fs = Ok ra ->
  comprehension (rated_tuple "song_b" "song_a") fs = Ok rb ->
  pair_in p (ra ++ rb) = judged_in fs p.
Proof.
  intros J Ea Eb. apply eq_true_iff_eq.
  rewrite pair_in_spec, in_app_iff, judged_in_spec. split.
  - intros [H | H].
    + destruct (comprehension_In_inv _ _ _ _ Ea H) as [f [Hf Ef]].
      destruct (is_judgment_pair _ _ J Hf) as [[a b] Hq].
      destruct (rated_tuple_judgment _ _ _ Hq) as [T _].
      rewrite T in Ef. inversion Ef.
      exists f, (a, b). repeat split; auto. apply same_pair_spec. left.
      destruct p; cbn [fst snd] in *; congruence.
    + destruct (comprehension_In_inv _ _ _ _ Eb H) as [f [Hf Ef]].
      destruct (is_judgment_pair _ _ J Hf) as [[a b] Hq].
      destruct (rated_tuple_judgment _ _ _ Hq) as [_ T].
      rewrite T in Ef. inversion Ef.
      exists f, (a, b). repeat split; auto. apply same_pair_spec. right.
      destruct p; cbn [fst snd] in *; congruence.
  - intros [f [[a b] [Hf [Hq S]]]].
    destruct (rated_tuple_judgment _ _ _ Hq) as [Tab Tba].
    apply same_pair_spec in S. cbn [fst snd] in S. destruct S as [-> | ->]; cbn [fst snd].
    + left. destruct (comprehension_In _ _ _ _ Ea Hf) as [t [Et Ht]]. congruence.
    + right. destruct (comprehension_In _ _ _ _ Eb Hf) as [t [Et Ht]]. congruence.
Qed.

(** On a list of judgments [generate_pairs] returns the enumeration without
    the pairs that have a judgment. *)
Lemma generate_pairs_judgments (file_names : list string) (fs : list value) :
  forallb is_judgment fs = true ->
  generate_pairs file_names fs =
  Ok (filter (fun p => negb (judged_in fs p)) (all_pairs file_names)).
Proof.
  intros J. destruct fs as [|f0 rest] eqn:F.
  - cbn [generate_pairs judged_in existsb negb]. f_equal.
    induction (all_pairs file_names) as [|p l IH]; cbn [filter]; congruence.
  - rewrite <- F in *. rewrite generate_pairs_nonempty by (rewrite F; discriminate).
    destruct (judgments_rated _ J) as [ra [rb [Ea Eb]]]. rewrite Ea, Eb. cbn [bind].
    f_equal. apply filter_ext. intros [a b]. cbn [fst snd]. f_equal.
    now apply pair_in_judged.
Qed.

(** ** Counting the pairs left *)

Lemma filter_none {A} (f : A -> bool) (l : list A) :
  (forall x, In x l -> f x = false) -> filter (fun x => negb (f x)) l = l.
Proof.
  induction l as [|a l IH]; intros H; cbn [filter]; [reflexivity|].
  rewrite (H a (or_introl eq_refl)). cbn [negb]. f_equal. apply IH.
  intros; apply H; now right.
Qed.

Lemma filter_all {A} (f : A -> bool) (l : list A) :
  (forall x, In x l -> f x = true) -> filter (fun x => negb (f x)) l = [].
Proof.
  induction l as [|a l IH]; intros H; cbn [filter]; [reflexivity|].
  rewrite (H a (or_introl eq_refl)). cbn [negb]. apply IH.
  intros; apply H; now right.
Qed.

Lemma filter_twice {A} (f g : A -> bool) (l : list A) :
  filter f (filter g l) = filter (fun x => g x && f x) l.
Proof.
  induction l as [|a l IH]; cbn [filter]; [reflexivity|].
  destruct (g a); cbn [filter andb]; [destruct (f a)|]; congruence.
Qed.

(** Filtering out the one element that passes a test shortens a
    duplicate-free list by one. *)
Lemma filter_drops_one {A} (f : A -> bool) (l : list A) (x : A) :
  NoDup l -> In x l -> f x = true ->
  (forall y, In y l -> f y = true -> y = x) ->
  length (filter (fun y => negb (f y)) l) + 1 = length l.
Proof.
  induction 1 as [|a l Ha Hl IH]; intros Hx Fx U; [contradiction|].
  cbn [filter length]. destruct (f a) eqn:Fa; cbn [negb].
  - assert (a = x) by (apply U; [now left | assumption]). subst a.
    rewrite filter_none; [lia|].
    intros y Hy. destruct (f y) eqn:Fy; [|reflexivity].
    assert (y = x) by (apply U; [now right | assumption]). subst y. contradiction.
  - cbn [length]. rewrite <- IH; [lia | | assumption |].
    + destruct Hx as [-> | Hx]; [congruence | assumption].
    + intros y Hy. apply U. now right.
Qed.

Lemma all_pairs_covers (l : list string) (a b : string) :
  In a l -> In b l -> a <> b ->
  In (a, b) (all_pairs l) \/ In (b, a) (all_pairs l).
Proof.
  induction l as [|x l IH]; [contradiction|].
  rewrite !in_all_pairs_cons. intros [-> | Ha] [-> | Hb] N.
  - congruence.
  - left. now left.
  - right. now left.
  - destruct (IH Ha Hb N); [left | right]; now right.
Qed.

(** Each pair judged once, and every judgment of a pair of the item set:
    the pairs left and the judgments add up to the whole enumeration. *)
Lemma remaining_count (file_names : list string) (ps : list pair_t) :
  NoDup file_names ->
  (forall a b, In (a, b) ps -> In a file_names /\ In b file_names /\ a <> b) ->
  ForallOrdPairs (fun p q => same_pair p q = false) ps ->
  length (filter (fun p => negb (existsb (same_pair p) ps)) (all_pairs file_names))
  + length ps = length (all_pairs file_names).
Proof.
  intros Hnd Hin Hord.
  induction Hord as [|q ps Hq Hord IH].
  - cbn [existsb]. rewrite filter_none; [cbn; lia | reflexivity].
  - cbn [length].
    assert (IH' := IH (fun a b H => Hin a b (or_intror H))). clear IH.
    set (kept := filter (fun p => negb (existsb (same_pair p) ps)) (all_pairs file_names)) in *.
    assert (E : filter (fun p => negb (existsb (same_pair p) (q :: ps))) (all_pairs file_names)
                = filter (fun p => negb (same_pair p q)) kept).
    { unfold kept. rewrite filter_twice. apply filter_ext. intros p.
      cbn [existsb]. rewrite negb_orb. apply andb_comm. }
    rewrite E. clear E.
    destruct q as [a b]. destruct (Hin a b (or_introl eq_refl)) as [Ha [Hb Nab]].
    assert (X : exists x, In x (all_pairs file_names) /\ same_pair x (a, b) = true).
    { destruct (all_pairs_covers file_names a b Ha Hb Nab) as [H | H];
        eexists; (split; [exact H|]); apply same_pair_spec; cbn [fst snd]; auto. }
    destruct X as [x [Hx Sx]].
    assert (Kx : In x kept).
    { unfold kept. apply filter_In. split; [assumption|].
      apply negb_true_iff. apply not_true_iff_false. intros C.
      apply existsb_exists in C. destruct C as [r [Hr Sr]].
      rewrite Forall_forall in Hq. specialize (Hq r Hr).
      rewrite same_pair_sym in Sx.
      rewrite (same_pair_trans _ _ _ Sx Sr) in Hq. discriminate. }
    rewrite <- IH'.
    rewrite <- (filter_drops_one (fun p => same_pair p (a, b)) kept x); [lia | | assumption.. |].
    + unfold kept. apply NoDup_filter. now apply all_pairs_NoDup.
    + intros [c d] Hy Sy.
      assert (Hy' : In (c, d) (all_pairs file_names)) by (unfold kept in Hy; now apply filter_In in Hy).
      rewrite same_pair_sym in Sx.
      assert (S := same_pair_trans _ _ _ Sy Sx). apply same_pair_spec in S.
      destruct S as [S | S]; [assumption|]. exfalso.
      destruct x as [e f]. cbn [fst snd] in S. inversion S; subst.
      now apply (all_pairs_one_orientation file_names e f Hnd Hx).
Qed.

Lemma judged_in_pairs (fs : list value) (ps : list pair_t) (p : pair_t) :
  map judged_pair fs = map Some ps ->
  judged_in fs p = existsb (same_pair p) ps.
Proof.
  revert ps. unfold judged_in.
  induction fs as [|f fs IH]; intros [|q ps] E; try discriminate; [reflexivity|].
  cbn [map] in E. inversion E as [[Ef Er]]. cbn [existsb]. rewrite Ef. f_equal. now apply IH.
Qed.

Lemma fits_item_set_judgments (file_names : list string) (prior : list value) :
  fits_item_set file_names prior -> forallb is_judgment prior = true.
Proof.
  intros [ps [E _]]. revert ps E.
  induction prior as [|f fs IH]; intros [|q ps] E; try discriminate; [reflexivity|].
  cbn [map] in E. inversion E as [[Ef Er]]. cbn [forallb].
  unfold is_judgment at 1. rewrite Ef. cbn. now apply (IH ps).
Qed.

(** What [generate_pairs] returns on prior feedback that fits the item set,
    and its length. *)
Lemma generate_pairs_fitting (file_names : list string) (prior : list value) :
  NoDup file_names ->
  fits_item_set file_names prior ->
  exists pairs,
    generate_pairs file_names prior = Ok pairs /\
    length prior + length pairs = length file_names * (length file_names - 1) / 2.
Proof.
  intros Hnd Hfit. rewrite generate_pairs_judgments by now apply fits_item_set_judgments with (1 := Hfit).
  eexists. split; [reflexivity|].
  destruct Hfit as [ps [E [Hin Hord]]].
  rewrite <- all_pairs_length, <- (remaining_count file_names ps Hnd Hin Hord).
  assert (L : length prior = length ps).
  { rewrite <- (length_map judged_pair), E. now rewrite length_map. }
  rewrite L, Nat.add_comm. f_equal. f_equal.
  apply filter_ext. intros p. f_equal. now apply judged_in_pairs.
Qed.

(** Whatever the feedback, the builder only drops pairs of the enumeration. *)
Lemma generate_pairs_kept (file_names : list string) (fs : list value)
    (pairs : list pair_t) :
  generate_pairs file_names fs = Ok pairs ->
  exists keep, pairs = filter keep (all_pairs file_names).
Proof.
  destruct fs as [|f0 rest] eqn:F.
  - cbn [generate_pairs]. intros E. inversion E. exists (fun p => negb false).
    symmetry. now apply (filter_none (fun _ => false)).
  - rewrite <- F. rewrite generate_pairs_nonempty by (rewrite F; discriminate).
    destruct (comprehension _ fs) as [ra|]; cbn [bind]; [|discriminate].
    destruct (comprehension _ fs) as [rb|]; cbn [bind]; [|discriminate].
    intros E. inversion E. eexists. reflexivity.
Qed.

(** ** Installing a queue *)

Lemma activate_cases (shuffle : list pair_t -> list pair_t) (w : widgets)
    (st : session_state) :
  (exists pairs shown,
     generate_pairs (item_names w) (loaded_feedback w) = Ok pairs /\
     activate shuffle w st = (Ok shown, activated w st (shuffle pairs) 0)) \/
  (exists e,
     generate_pairs (item_names w) (loaded_feedback w) = Raise e /\
     activate shuffle w st =
     (Raise e, activated w st (remaining_pairs st) (current_pair_index st))).
Proof.
  unfold activate, activated, item_names, loaded_feedback.
  unfold app_bind, set_audio_files, set_feedback, set_remaining_pairs,
    set_current_pair_index, read, lift, ret.
  destruct (feedback_upload w) as [feedback_file|]; cbn [fst snd truthy].
  - destruct (load_previous_feedback feedback_file) as [prev errors]. cbn [fst snd].
    destruct (truthy prev) eqn:T; cbn [fst snd audio_files feedback remaining_pairs
                                        current_pair_index];
      destruct (generate_pairs _ prev) as [pairs|e]; [left | right | left | right];
      eauto.
  - cbn [fst snd audio_files feedback remaining_pairs current_pair_index].
    destruct (generate_pairs _ []) as [pairs|e]; [left | right]; eauto.
Qed.

Lemma main_first_run (shuffle : list pair_t -> list pair_t) (w : widgets) :
  main shuffle w initial_state =
  if truthy (uploaded_files w) then activate shuffle w initial_state
  else (Ok [WritePleaseUpload], initial_state).
Proof.
  unfold main. destruct (uploaded_files w) as [|f ufs]; [reflexivity|].
  cbn [truthy]. unfold app_bind at 1. cbn. reflexivity.
Qed.

Lemma item_names_length (w : widgets) :
  length (item_names w) = length (save_uploaded_files (uploaded_files w)).
Proof. unfold item_names, keys. apply length_map. Qed.

(** ** Exported feedback is loadable *)

Lemma getitem_ok_has (f : value) (key : string) (v : value) :
  getitem f key = Ok v -> exists items, f = VDict items /\ dict_has items key = true.
Proof.
  destruct f; try discriminate. cbn [getitem]. unfold dict_get, dict_has.
  destruct (find _ items) as [kv|] eqn:F; [|discriminate]. intros _.
  exists items. split; [reflexivity|].
  apply find_some in F. apply existsb_exists. now exists kv.
Qed.

Lemma is_rating_passes (f : value) :
  is_rating f = true -> all_of (contains f) required_keys = Ok true.
Proof.
  unfold is_rating, is_judgment.
  destruct (judged_pair f) as [[a b]|] eqn:J; [|discriminate].
  apply judged_pair_fields in J. destruct J as [Ha Hb].
  destruct (getitem f "similarity_score") as [v|] eqn:Hs; [|discriminate].
  intros _.
  apply getitem_ok_has in Ha. destruct Ha as [items [-> Ha]].
  apply getitem_ok_has in Hb. destruct Hb as [items' [E Hb]].
  apply getitem_ok_has in Hs. destruct Hs as [items'' [E' Hs]].
  inversion E; inversion E'; subst items' items''.
  rewrite all_of_dict. now rewrite Ha, Hb, Hs.
Qed.

Lemma ratings_pass (fs : list value) :
  forallb is_rating fs = true -> entries_pass fs = Ok true.
Proof.
  induction fs as [|f fs IH]; [reflexivity|].
  cbn [forallb entries_pass]. intros H. apply andb_true_iff in H. destruct H as [Hf Hfs].
  rewrite (is_rating_passes f Hf). cbn [bind]. now apply IH.
Qed.

Lemma ratings_are_judgments (fs : list value) :
  forallb is_rating fs = true -> forallb is_judgment fs = true.
Proof.
  rewrite !forallb_forall. intros H f Hf. apply H in Hf.
  unfold is_rating in Hf. now apply andb_true_iff in Hf.
Qed.

(** The loader returns an exported list of ratings whole, with no error. *)
Lemma load_exported (fs : list value) :
  forallb is_rating fs = true ->
  load_previous_feedback (json_dumps (VList fs)) = (fs, []).
Proof.
  intros H. unfold load_previous_feedback, load_previous_feedback_try, json_dumps.
  cbn [json_loads bind]. now rewrite (ratings_pass fs H).
Qed.

Section Shuffled.

(** [random.shuffle] reorders the list it is given, and nothing more is
    assumed of it. *)
Variable shuffle : list pair_t -> list pair_t.
Hypothesis shuffle_permutes : forall l, Permutation l (shuffle l).

Lemma first_run_cases (w : widgets) (shown : list message) (st : session_state) :
  main shuffle w initial_state = (Ok shown, st) ->
  (uploaded_files w = [] /\ st = initial_state) \/
  (exists pairs,
     generate_pairs (item_names w) (loaded_feedback w) = Ok pairs /\
     st = activated w initial_state (shuffle pairs) 0).
Proof.
  rewrite main_first_run. destruct (uploaded_files w) as [|f ufs] eqn:U; cbn [truthy].
  - intros E. inversion E. now left.
  - intros E. right.
    destruct (activate_cases shuffle w initial_state)
      as [[pairs [shown' [G A]]] | [e [G A]]]; rewrite A in E; inversion E.
    now exists pairs.
Qed.

(** The queue a first run installs never holds a pair twice: the names are
    the keys of a dict, the builder only drops pairs, and the shuffle only
    reorders. *)
Lemma first_run_queue_NoDup (w : widgets) (shown : list message) (st : session_state) :
  main shuffle w initial_state = (Ok shown, st) -> NoDup (remaining_pairs st).
Proof.
  intros H. apply first_run_cases in H. destruct H as [[_ ->] | [pairs [G ->]]].
  - constructor.
  - cbn [activated remaining_pairs].
    apply (Permutation_NoDup (shuffle_permutes pairs)).
    destruct (generate_pairs_kept _ _ _ G) as [keep ->].
    apply NoDup_filter, all_pairs_NoDup, save_uploaded_files_NoDup.
Qed.

End Shuffled.

(** C3, as stated, fails: a feedback file with one judgment of a pair of
    other songs is loaded whole, and the queue still holds the three pairs
    of the three uploaded files. *)
Lemma foreign_judgment_counted :
  exists st,
    reachable (fun l => l) foreign_resume st /\
    length (audio_files st) = 3 /\
    length (feedback st) + length (remaining_pairs st) - current_pair_index st = 4 /\
    4 <> 3 * (3 - 1) / 2.
Proof.
  eexists. split; [eapply reach_first_run; reflexivity|].
  cbn. repeat split; discriminate.
Qed.

(** * Further properties of the code *)

(** ** The pair builder on any feedback *)

Lemma in_all_pairs_positions (l : list string) (a b : string) :
  In (a, b) (all_pairs l) <-> exists i j, at_positions l i j (a, b).
Proof.
  unfold at_positions. cbn [fst snd].
  induction l as [|x l IH].
  - rewrite all_pairs_nil. split; [contradiction|].
    intros [i [j [_ [H _]]]]. destruct i; discriminate.
  - rewrite in_all_pairs_cons, IH. split.
    + intros [[-> Hb] | [i [j [Lt [Hi Hj]]]]].
      * apply In_nth_error in Hb. destruct Hb as [n Hn].
        exists 0, (S n). repeat split; [lia | assumption].
      * exists (S i), (S j). repeat split; [lia | assumption..].
    + intros [i [j [Lt [Hi Hj]]]].
      destruct j as [|j]; [lia|]. cbn [nth_error] in Hj.
      destruct i as [|i]; cbn [nth_error] in Hi.
      * left. inversion Hi. split; [reflexivity|]. now apply nth_error_In in Hj.
      * right. exists i, j. repeat split; [lia | assumption..].
Qed.

Lemma rated_tuple_inv (k1 k2 : string) (f : value) (x y : value) :
  rated_tuple k1 k2 f = Ok (x, y) -> getitem f k1 = Ok x /\ getitem f k2 = Ok y.
Proof.
  unfold rated_tuple.
  destruct (getitem f k1) as [a|]; cbn [bind]; [|discriminate].
  destruct (getitem f k2) as [b|]; cbn [bind]; [|discriminate].
  destruct (hashable a && hashable b); [|discriminate].
  intros E. now inversion E.
Qed.

Lemma judged_pair_of_fields (f : value) (a b : string) :
  getitem f "song_a" = Ok (VStr a) -> getitem f "song_b" = Ok (VStr b) ->
  judged_pair f = Some (a, b).
Proof. unfold judged_pair. now intros -> ->. Qed.

(** The set test of [generate_pairs], on any feedback the two comprehensions
    accept: whether some entry is a judgment of the pair, in either order. *)
Lemma pair_in_judged_any (fs : list value) (ra rb : list (value * value)) (p : pair_t) :
  comprehension (rated_tuple "song_a" "song_b") fs = Ok ra ->
  comprehension (rated_tuple "song_b" "song_a") fs = Ok rb ->
  pair_in p (ra ++ rb) = judged_in fs p.
Proof.
  intros Ea Eb. apply eq_true_iff_eq.
  rewrite pair_in_spec, in_app_iff, judged_in_spec. split.
  - intros [H | H].
    + destruct (comprehension_In_inv _ _ _ _ Ea H) as [f [Hf Ef]].
      apply rated_tuple_inv in Ef. destruct Ef as [Fa Fb].
      exists f, p. repeat split; [assumption | | ].
      * destruct p. now apply judged_pair_of_fields.
      * apply same_pair_spec. now left.
    + destruct (comprehension_In_inv _ _ _ _ Eb H) as [f [Hf Ef]].
      apply rated_tuple_inv in Ef. destruct Ef as [Fb Fa].
      exists f, (snd p, fst p). repeat split; [assumption | | ].
      * now apply judged_pair_of_fields.
      * apply same_pair_spec. right. now destruct p.
  - intros [f [[a b] [Hf [Hq S]]]].
    destruct (rated_tuple_judgment _ _ _ Hq) as [Tab Tba].
    apply same_pair_spec in S. cbn [fst snd] in S. destruct S as [-> | ->]; cbn [fst snd].
    + left. destruct (comprehension_In _ _ _ _ Ea Hf) as [t [Et Ht]]. congruence.
    + right. destruct (comprehension_In _ _ _ _ Eb Hf) as [t [Et Ht]]. congruence.
Qed.

Lemma generate_pairs_filter (file_names : list string) (fs : list value)
    (pairs : list pair_t) :
  generate_pairs file_names fs = Ok pairs ->
  pairs = filter (fun p => negb (judged_in fs p)) (all_pairs file_names).
Proof.
  destruct fs as [|f0 rest] eqn:F.
  - cbn [generate_pairs]. intros E. inversion E.
    symmetry. now apply (filter_none (judged_in [])).
  - rewrite <- F. rewrite generate_pairs_nonempty by (rewrite F; discriminate).
    destruct (comprehension _ fs) as [ra|] eqn:Ea; cbn [bind]; [|discriminate].
    destruct (comprehension (rated_tuple "song_b" "song_a") fs) as [rb|] eqn:Eb;
      cbn [bind]; [|discriminate].
    intros E. inversion E. apply filter_ext. intros [a b]. cbn [fst snd]. f_equal.
    now apply pair_in_judged_any.
Qed.

(** X1: whatever the previous feedback holds, a list that [generate_pairs]
    returns is made of the pairs of names at positions i < j, first name
    first, without those that some entry judges in either order, and lists
    them in the order of the enumeration. *)
Theorem generate_pairs_returns (file_names : list string) (fs : list value)
    (pairs : list pair_t) :
  generate_pairs file_names fs = Ok pairs ->
  pairs = filter (fun p => negb (judged_in fs p)) (all_pairs file_names) /\
  forall a b,
    In (a, b) pairs <->
    (exists i j, at_positions file_names i j (a, b)) /\ judged_in fs (a, b) = false.
Proof.
  intros E. apply generate_pairs_filter in E. split; [exact E|].
  intros a b. rewrite E, filter_In, negb_true_iff, in_all_pairs_positions. reflexivity.
Qed.

Lemma generate_pairs_returns_witness :
  [("a.wav", "c.wav"); ("b.wav", "c.wav")]%string =
    filter (fun p => negb (judged_in [feedback_entry ("b.wav", "a.wav")%string (4 # 10)] p))
           (all_pairs abc) /\
  forall a b,
    In (a, b) [("a.wav", "c.wav"); ("b.wav", "c.wav")]%string <->
    (exists i j, at_positions abc i j (a, b)) /\
    judged_in [feedback_entry ("b.wav", "a.wav")%string (4 # 10)] (a, b) = false.
Proof.
  apply (generate_pairs_returns abc [feedback_entry ("b.wav", "a.wav")%string (4 # 10)]).
  reflexivity.
Defined.

(** X2: fewer than two names leave nothing to rate: with no feedback
    [generate_pairs] returns the empty list, and with any feedback it returns
    the empty list or raises. *)
Theorem generate_pairs_few_names (file_names : list string) (fs : list value) :
  length file_names < 2 ->
  generate_pairs file_names [] = Ok [] /\
  (generate_pairs file_names fs = Ok [] \/ exists e, generate_pairs file_names fs = Raise e).
Proof.
  intros L.
  assert (A : all_pairs file_names = []).
  { destruct file_names as [|x [|y l]]; [reflexivity | reflexivity | cbn in L; lia]. }
  split; [cbn [generate_pairs]; now rewrite A|].
  destruct (generate_pairs file_names fs) as [pairs|e] eqn:E; [left | right; now exists e].
  apply generate_pairs_filter in E. rewrite A in E. now subst.
Qed.

Lemma generate_pairs_few_names_witness :
  generate_pairs ["a.wav"]%string [] = Ok [] /\
  (generate_pairs ["a.wav"]%string [feedback_entry ("a.wav", "b.wav")%string (1 # 2)] = Ok [] \/
   exists e, generate_pairs ["a.wav"]%string
               [feedback_entry ("a.wav", "b.wav")%string (1 # 2)] = Raise e).
Proof.
  apply (generate_pairs_few_names ["a.wav"]%string
           [feedback_entry ("a.wav", "b.wav")%string (1 # 2)]).
  simpl. lia.
Defined.

(** ** Feedback the builder cannot use *)

Lemma rated_tuple_of_error (f : value) (e : exn) :
  entry_error f = Some e -> rated_tuple "song_a" "song_b" f = Raise e.
Proof.
  unfold entry_error, rated_tuple.
  destruct f; try (intros E; inversion E; reflexivity).
  cbn [getitem].
  destruct (dict_get items "song_a") as [a|]; cbn [bind];
    [|intros E; inversion E; reflexivity].
  destruct (dict_get items "song_b") as [b|]; cbn [bind];
    [|intros E; inversion E; reflexivity].
  destruct (hashable a && hashable b); [discriminate|].
  intros E; inversion E; reflexivity.
Qed.

Lemma rated_tuple_of_usable (f : value) :
  entry_error f = None ->
  (exists t, rated_tuple "song_a" "song_b" f = Ok t) /\
  (exists u, rated_tuple "song_b" "song_a" f = Ok u).
Proof.
  unfold entry_error, rated_tuple.
  destruct f; try discriminate. cbn [getitem].
  destruct (dict_get items "song_a") as [a|]; [|discriminate].
  destruct (dict_get items "song_b") as [b|]; [|discriminate].
  cbn [bind]. rewrite (andb_comm (hashable b)).
  destruct (hashable a && hashable b); [|discriminate].
  intros _. split; eexists; reflexivity.
Qed.

Lemma comprehension_raises_at {A B} (elt : A -> result B) (good rest : list A)
    (x : A) (e : exn) :
  (forall g, In g good -> exists y, elt g = Ok y) ->
  elt x = Raise e ->
  comprehension elt (good ++ x :: rest) = Raise e.
Proof.
  intros G X. rewrite comprehension_app.
  destruct (comprehension_total elt good G) as [ys ->]. cbn [bind comprehension].
  now rewrite X.
Qed.

Lemma generate_pairs_total (file_names : list string) (fs : list value) :
  Forall (fun f => entry_error f = None) fs ->
  exists pairs, generate_pairs file_names fs = Ok pairs.
Proof.
  intros H. rewrite Forall_forall in H.
  destruct fs as [|f0 rest] eqn:F; [now eexists|].
  rewrite <- F in *. rewrite generate_pairs_nonempty by (rewrite F; discriminate).
  destruct (comprehension_total (rated_tuple "song_a" "song_b") fs) as [ra ->].
  { intros f Hf. now destruct (rated_tuple_of_usable f (H f Hf)). }
  destruct (comprehension_total (rated_tuple "song_b" "song_a") fs) as [rb ->].
  { intros f Hf. now destruct (rated_tuple_of_usable f (H f Hf)). }
  cbn [bind]. now eexists.
Qed.

Lemma generate_pairs_usable (file_names : list string) (fs : list value)
    (pairs : list pair_t) :
  generate_pairs file_names fs = Ok pairs ->
  Forall (fun f => entry_error f = None) fs.
Proof.
  destruct fs as [|f0 rest] eqn:F; [constructor|].
  rewrite <- F. rewrite generate_pairs_nonempty by (rewrite F; discriminate).
  destruct (comprehension _ fs) as [ra|] eqn:Ea; cbn [bind]; [|discriminate].
  intros _. apply Forall_forall. intros f Hf.
  destruct (comprehension_In _ _ _ _ Ea Hf) as [t [Et _]].
  destruct (entry_error f) as [e|] eqn:Ee; [|reflexivity].
  rewrite (rated_tuple_of_error f e Ee) in Et. discriminate.
Qed.

(** X3: [generate_pairs] returns a list when every feedback entry is a dict
    with both song keys and songs that are not lists or dicts, and otherwise
    raises at the first entry that is not: [TypeError] when the entry is no
    dict or a song is a list or dict, [KeyError] when a song key is absent.
    The similarity score is never looked at. *)
Theorem generate_pairs_entry_errors (file_names : list string) (fs : list value) :
  (Forall (fun f => entry_error f = None) fs ->
   exists pairs, generate_pairs file_names fs = Ok pairs) /\
  (forall good f rest e,
     fs = good ++ f :: rest ->
     Forall (fun g => entry_error g = None) good ->
     entry_error f = Some e ->
     generate_pairs file_names fs = Raise e).
Proof.
  split; [apply generate_pairs_total|].
  intros good f rest e -> G E.
  rewrite generate_pairs_nonempty
    by (intros N; apply app_eq_nil in N; destruct N; discriminate).
  rewrite (comprehension_raises_at _ good rest f e); [reflexivity | | now apply rated_tuple_of_error].
  rewrite Forall_forall in G. intros g Hg.
  now destruct (rated_tuple_of_usable g (G g Hg)).
Qed.

Lemma generate_pairs_entry_errors_witness :
  generate_pairs abc [feedback_entry ("a.wav", "b.wav")%string (4 # 10);
                      VDict [("song_a"%string, VStr "a.wav")];
                      VNone] = Raise KeyError.
Proof.
  apply (proj2 (generate_pairs_entry_errors abc _)
           [feedback_entry ("a.wav", "b.wav")%string (4 # 10)]
           (VDict [("song_a"%string, VStr "a.wav")]) [VNone] KeyError).
  - reflexivity.
  - repeat constructor.
  - reflexivity.
Defined.

Lemma judged_in_permutation (fs fs' : list value) (p : pair_t) :
  Permutation fs fs' -> judged_in fs p = judged_in fs' p.
Proof.
  intros P. apply eq_true_iff_eq. rewrite !judged_in_spec.
  split; intros [f [q [Hf H]]]; exists f, q; split; auto.
  - now apply (Permutation_in _ P).
  - now apply (Permutation_in _ (Permutation_sym P)).
Qed.

(** X4: the order of the previous feedback does not matter: when
    [generate_pairs] returns a list, it returns the same list on the entries
    in any other order. *)
Theorem generate_pairs_feedback_order (file_names : list string) (fs fs' : list value)
    (pairs : list pair_t) :
  Permutation fs fs' ->
  generate_pairs file_names fs = Ok pairs ->
  generate_pairs file_names fs' = Ok pairs.
Proof.
  intros P E.
  assert (U := generate_pairs_usable _ _ _ E).
  apply (Permutation_Forall P) in U.
  destruct (generate_pairs_total file_names fs' U) as [pairs' E'].
  rewrite E'. f_equal.
  apply generate_pairs_filter in E. apply generate_pairs_filter in E'.
  rewrite E, E'. apply filter_ext. intros p. f_equal.
  symmetry. now apply judged_in_permutation.
Qed.

Lemma generate_pairs_feedback_order_witness :
  generate_pairs abc [feedback_entry ("a.wav", "c.wav")%string (1 # 10);
                      feedback_entry ("b.wav", "a.wav")%string (4 # 10)] =
  Ok [("b.wav", "c.wav")%string].
Proof.
  apply (generate_pairs_feedback_order abc
           [feedback_entry ("b.wav", "a.wav")%string (4 # 10);
            feedback_entry ("a.wav", "c.wav")%string (1 # 10)]).
  - apply perm_swap.
  - reflexivity.
Defined.

(** X5: feedback only ever shortens the queue: with more entries in the
    previous feedback, every pair [generate_pairs] returns was already
    returned with fewer. *)
Theorem generate_pairs_more_feedback (file_names : list string) (fs more : list value)
    (pairs pairs' : list pair_t) :
  generate_pairs file_names fs = Ok pairs ->
  generate_pairs file_names (fs ++ more) = Ok pairs' ->
  incl pairs' pairs /\ length pairs' <= length pairs.
Proof.
  intros E E'. apply generate_pairs_filter in E. apply generate_pairs_filter in E'.
  assert (J : forall p, judged_in (fs ++ more) p = false -> judged_in fs p = false).
  { intros p. unfold judged_in. rewrite existsb_app. now intros H%orb_false_elim. }
  subst. split.
  - intros p Hp. apply filter_In in Hp. destruct Hp as [Hp Hj].
    apply filter_In. split; [assumption|].
    apply negb_true_iff in Hj. apply negb_true_iff. now apply J.
  - induction (all_pairs file_names) as [|p l IH]; [reflexivity|].
    cbn [filter]. destruct (judged_in (fs ++ more) p) eqn:Jp; cbn [negb].
    + destruct (negb (judged_in fs p)); cbn [length]; lia.
    + rewrite (J p Jp). cbn [negb length]. lia.
Qed.

Lemma generate_pairs_more_feedback_witness :
  incl [("b.wav", "c.wav")%string] [("a.wav", "c.wav"); ("b.wav", "c.wav")]%string /\
  length [("b.wav", "c.wav")%string] <=
  length [("a.wav", "c.wav"); ("b.wav", "c.wav")]%string.
Proof.
  apply (generate_pairs_more_feedback abc
           [feedback_entry ("b.wav", "a.wav")%string (4 # 10)]
           [feedback_entry ("a.wav", "c.wav")%string (1 # 10)]); reflexivity.
Defined.

(** ** Storing the uploaded files *)

Lemma dict_get_set_same {V} (items : list (string * V)) (k : string) (v : V) :
  dict_get (dict_set items k v) k = Some v.
Proof.
  unfold dict_get. induction items as [|[k0 w] rest IH]; cbn [dict_set find fst].
  - now rewrite String.eqb_refl.
  - destruct (String.eqb_spec k k0) as [-> | N]; cbn [find fst].
    + now rewrite String.eqb_refl.
    + destruct (String.eqb_spec k k0); [contradiction | exact IH].
Qed.

Lemma dict_get_set_other {V} (items : list (string * V)) (k k' : string) (v : V) :
  k' <> k -> dict_get (dict_set items k v) k' = dict_get items k'.
Proof.
  intros N. unfold dict_get.
  induction items as [|[k0 w] rest IH]; cbn [dict_set find fst].
  - destruct (String.eqb_spec k' k); [contradiction | reflexivity].
  - destruct (String.eqb_spec k k0) as [-> | N0]; cbn [find fst].
    + destruct (String.eqb_spec k' k0); [contradiction | reflexivity].
    + destruct (String.eqb_spec k' k0); [reflexivity | exact IH].
Qed.

Lemma dict_set_new {V} (items : list (string * V)) (k : string) (v : V) :
  ~ In k (keys items) -> dict_set items k v = items ++ [(k, v)].
Proof.
  unfold keys. induction items as [|[k0 w] rest IH]; cbn [dict_set map fst In app];
    intros N; [reflexivity|].
  destruct (String.eqb_spec k k0) as [-> | N0]; [tauto|].
  f_equal. apply IH. tauto.
Qed.

Lemma save_into_keys (ufs : list uploaded_file) :
  forall audio x,
    In x (keys (save_into audio ufs)) <-> In x (keys audio) \/ In x (map name ufs).
Proof.
  unfold save_into.
  induction ufs as [|f ufs IH]; intros audio x; cbn [fold_left map In]; [tauto|].
  rewrite IH, dict_set_keys_in. intuition.
Qed.

Lemma save_into_other (ufs : list uploaded_file) :
  forall audio k,
    ~ In k (map name ufs) -> dict_get (save_into audio ufs) k = dict_get audio k.
Proof.
  unfold save_into.
  induction ufs as [|f ufs IH]; intros audio k N; cbn [fold_left]; [reflexivity|].
  cbn [map In] in N. rewrite IH by tauto. apply dict_get_set_other. intros E. apply N. now left.
Qed.

Lemma save_into_distinct (ufs : list uploaded_file) :
  forall audio,
    NoDup (map name ufs) ->
    (forall f, In f ufs -> ~ In (name f) (keys audio)) ->
    save_into audio ufs = audio ++ map (fun f => (name f, content f)) ufs.
Proof.
  unfold save_into.
  induction ufs as [|f ufs IH]; intros audio Hnd Hnew; cbn [fold_left map].
  - now rewrite app_nil_r.
  - inversion Hnd as [|? ? Hf Hrest]; subst.
    rewrite dict_set_new by (apply Hnew; now left).
    rewrite IH; [now rewrite <- app_assoc | assumption |].
    intros g Hg Hin. unfold keys in Hin. rewrite map_app, in_app_iff in Hin.
    destruct Hin as [Hin | [E | []]].
    + now apply (Hnew g (or_intror Hg)).
    + cbn [fst] in E. apply Hf. rewrite E. now apply in_map.
Qed.

(** X6: the stored dict has each uploaded name as a key exactly once, and no
    other key, so it never holds more files than were uploaded. *)
Theorem save_uploaded_files_keys (ufs : list uploaded_file) :
  NoDup (keys (save_uploaded_files ufs)) /\
  (forall x, In x (keys (save_uploaded_files ufs)) <-> In x (map name ufs)) /\
  length (save_uploaded_files ufs) <= length ufs.
Proof.
  assert (K : forall x, In x (keys (save_uploaded_files ufs)) <-> In x (map name ufs)).
  { intros x. change (save_uploaded_files ufs) with (save_into [] ufs).
    rewrite save_into_keys. cbn. tauto. }
  split; [apply save_uploaded_files_NoDup|]. split; [exact K|].
  rewrite <- (length_map name ufs), <- (length_map fst (save_uploaded_files ufs)).
  apply NoDup_incl_length; [apply save_uploaded_files_NoDup|].
  intros x. apply K.
Qed.

(** X7: of several uploads with one name the last is the one stored: a
    lookup of a name gives the bytes of the last upload that has it. *)
Theorem save_uploaded_files_last_wins (before after : list uploaded_file)
    (f : uploaded_file) :
  ~ In (name f) (map name after) ->
  audio_of (save_uploaded_files (before ++ f :: after)) (name f) = Ok (content f).
Proof.
  intros N. unfold audio_of.
  change (save_uploaded_files (before ++ f :: after))
    with (save_into [] (before ++ f :: after)).
  unfold save_into. rewrite fold_left_app. cbn [fold_left].
  fold (save_into [] before).
  fold (save_into (dict_set (save_into [] before) (name f) (content f)) after).
  rewrite save_into_other by assumption.
  now rewrite dict_get_set_same.
Qed.

Lemma save_uploaded_files_last_wins_witness :
  audio_of (save_uploaded_files
              ([mk_upload "a.wav" [Byte.x01]; mk_upload "b.wav" []] ++
               mk_upload "a.wav" [Byte.x02] :: [mk_upload "c.wav" []]))
           "a.wav" = Ok [Byte.x02].
Proof.
  apply (save_uploaded_files_last_wins
           [mk_upload "a.wav" [Byte.x01]; mk_upload "b.wav" []]
           [mk_upload "c.wav" []] (mk_upload "a.wav" [Byte.x02])).
  simpl. intuition discriminate.
Defined.

(** X8: uploads with different names are stored in the order of the upload,
    each under its name with its bytes, so the names [generate_pairs] is
    given are the uploaded names in that order. *)
Theorem save_uploaded_files_distinct (ufs : list uploaded_file) :
  NoDup (map name ufs) ->
  save_uploaded_files ufs = map (fun f => (name f, content f)) ufs /\
  keys (save_uploaded_files ufs) = map name ufs.
Proof.
  intros Hnd.
  assert (E : save_uploaded_files ufs = map (fun f => (name f, content f)) ufs).
  { change (save_uploaded_files ufs) with (save_into [] ufs).
    now rewrite save_into_distinct by (auto; intros ? ? []). }
  split; [exact E|]. rewrite E. unfold keys. rewrite map_map. reflexivity.
Qed.

Lemma save_uploaded_files_distinct_witness :
  save_uploaded_files abc_uploads = map (fun f => (name f, content f)) abc_uploads /\
  keys (save_uploaded_files abc_uploads) = map name abc_uploads.
Proof.
  apply (save_uploaded_files_distinct abc_uploads).
  repeat constructor; simpl; intuition discriminate.
Defined.

(** ** What the loader accepts and what it shows *)

Lemma all_of_bools {A} (test : A -> bool) (ks : list A) :
  all_of (fun k => Ok (test k)) ks = Ok (forallb test ks).
Proof.
  induction ks as [|k ks IH]; [reflexivity|].
  cbn [all_of bind forallb]. destruct (test k); [exact IH | reflexivity].
Qed.

Lemma entry_verdict_pass (entry : value) :
  entry_verdict entry = None -> all_of (contains entry) required_keys = Ok true.
Proof.
  destruct entry; try discriminate; cbn [entry_verdict].
  - destruct (forallb _ required_keys) eqn:F; [intros _ | discriminate].
    change (contains (VStr s)) with (fun key => Ok (A := bool) (is_substring key s)).
    now rewrite all_of_bools, F.
  - destruct (forallb _ required_keys) eqn:F; [intros _ | discriminate].
    change (contains (VList l)) with (fun key => Ok (A := bool) (existsb (str_eq key) l)).
    now rewrite all_of_bools, F.
  - destruct (forallb _ required_keys) eqn:F; [intros _ | discriminate].
    change (contains (VDict items)) with (fun key => Ok (A := bool) (dict_has items key)).
    now rewrite all_of_bools, F.
Qed.

Lemma entry_verdict_fail (entry : value) (shown : message) :
  entry_verdict entry = Some shown ->
  (shown = ErrorMissingFields /\ all_of (contains entry) required_keys = Ok false) \/
  (shown = ErrorLoading TypeError /\
   all_of (contains entry) required_keys = Raise TypeError).
Proof.
  destruct entry; cbn [entry_verdict];
    try (intros E; inversion E; right; split; reflexivity).
  - destruct (forallb _ required_keys) eqn:F; [discriminate|].
    intros E; inversion E. left. split; [reflexivity|].
    change (contains (VStr s)) with (fun key => Ok (A := bool) (is_substring key s)).
    now rewrite all_of_bools, F.
  - destruct (forallb _ required_keys) eqn:F; [discriminate|].
    intros E; inversion E. left. split; [reflexivity|].
    change (contains (VList l)) with (fun key => Ok (A := bool) (existsb (str_eq key) l)).
    now rewrite all_of_bools, F.
  - destruct (forallb _ required_keys) eqn:F; [discriminate|].
    intros E; inversion E. left. split; [reflexivity|].
    change (contains (VDict items)) with (fun key => Ok (A := bool) (dict_has items key)).
    now rewrite all_of_bools, F.
Qed.

Lemma entries_pass_all (entries : list value) :
  Forall (fun entry => entry_verdict entry = None) entries ->
  entries_pass entries = Ok true.
Proof.
  induction 1 as [|entry rest H _ IH]; [reflexivity|].
  cbn [entries_pass]. now rewrite (entry_verdict_pass entry H).
Qed.

Lemma entries_pass_app (good rest : list value) :
  entries_pass good = Ok true -> entries_pass (good ++ rest) = entries_pass rest.
Proof.
  induction good as [|entry good IH]; [reflexivity|].
  cbn [entries_pass app].
  destruct (all_of (contains entry) required_keys) as [[|]|]; cbn [bind];
    [exact IH | discriminate | discriminate].
Qed.

(** X9: the loader goes through the entries in order.  It returns the whole
    list, with no error, when every entry passes, and a dict passes as soon
    as it has the three keys, whatever their values; otherwise it returns the
    empty list and shows the one error of the first entry that fails:
    missing fields, or the error of an exception for [None], a boolean or a
    number. *)
Theorem load_previous_feedback_verdicts (entries : list value) :
  (Forall (fun entry => entry_verdict entry = None) entries ->
   load_previous_feedback (Encoded (VList entries)) = (entries, [])) /\
  (forall good bad rest shown,
     entries = good ++ bad :: rest ->
     Forall (fun entry => entry_verdict entry = None) good ->
     entry_verdict bad = Some shown ->
     load_previous_feedback (Encoded (VList entries)) = ([], [shown])).
Proof.
  unfold load_previous_feedback, load_previous_feedback_try. cbn [json_loads bind].
  split.
  - intros H. now rewrite (entries_pass_all entries H).
  - intros good bad rest shown -> G B.
    rewrite (entries_pass_app good (bad :: rest) (entries_pass_all good G)).
    cbn [entries_pass].
    destruct (entry_verdict_fail bad shown B) as [[-> ->] | [-> ->]]; reflexivity.
Qed.

Lemma load_previous_feedback_verdicts_witness :
  load_previous_feedback
    (Encoded (VList [VDict [("song_a"%string, VNum 1); ("song_b"%string, VNone);
                            ("similarity_score"%string, VStr "high")];
                     VNum 3;
                     VStr "junk"])) = ([], [ErrorLoading TypeError]).
Proof.
  apply (proj2 (load_previous_feedback_verdicts _)
           [VDict [("song_a"%string, VNum 1); ("song_b"%string, VNone);
                   ("similarity_score"%string, VStr "high")]]
           (VNum 3) [VStr "junk"] (ErrorLoading TypeError)).
  - reflexivity.
  - repeat constructor.
  - reflexivity.
Defined.

(** X10: the loader returns the entries of the file, all of them, exactly
    when it shows no error; when it shows an error it shows one and returns
    the empty list. *)
Theorem load_previous_feedback_outcomes (feedback_file : json_text) :
  (snd (load_previous_feedback feedback_file) = [] /\
   feedback_file = Encoded (VList (fst (load_previous_feedback feedback_file)))) \/
  (fst (load_previous_feedback feedback_file) = [] /\
   exists shown, snd (load_previous_feedback feedback_file) = [shown]).
Proof.
  unfold load_previous_feedback, load_previous_feedback_try.
  destruct feedback_file as [| |v]; cbn [json_loads bind].
  { right. split; [reflexivity | eexists; reflexivity]. }
  { right. split; [reflexivity | eexists; reflexivity]. }
  destruct v; try (right; split; [reflexivity | eexists; reflexivity]).
  destruct (entries_pass l) as [[|]|e]; cbn [bind fst snd].
  - now left.
  - right. split; [reflexivity | eexists; reflexivity].
  - right. destruct e; (split; [reflexivity | eexists; reflexivity]).
Qed.

(** ** Outcomes of the submit handler *)

(** X11: the handler returns [True] exactly on a session with a current
    pair, and any other call, whether it returns [False] or raises, leaves
    the session as it was. *)
Theorem handle_submission_outcomes (s : Q) (st : session_state) :
  (fst (handle_submission s st) = Ok true <-> active st) /\
  (fst (handle_submission s st) <> Ok true -> snd (handle_submission s st) = st) /\
  (fst (handle_submission s st) = Ok false <-> remaining_pairs st = []).
Proof.
  unfold active.
  destruct (handle_submission_cases s st) as [[R E] | [[p [Hp E]] | [N [L E]]]];
    rewrite E; cbn [fst snd].
  - rewrite R. cbn [length]. repeat split; try discriminate; try lia; auto.
  - assert (Lt : current_pair_index st < length (remaining_pairs st))
      by (apply nth_error_Some; rewrite Hp; discriminate).
    repeat split; try discriminate; try congruence; auto.
    intros R. rewrite R in Lt. cbn in Lt. lia.
  - repeat split; try discriminate; try lia; auto. intros R. contradiction.
Qed.

(** ** Submitting less, and more, than the queue *)

Lemma submit_all_part (part : list pair_t) :
  forall (done rest : list pair_t) (scores : list Q) (fb : list value)
         (audio : list (string * list Byte.byte)),
    length scores = length part ->
    submit_all scores (mk_session fb (done ++ part ++ rest) (length done) audio) =
    (Ok (repeat true (length part)),
     mk_session (fb ++ entries_of part scores) (done ++ part ++ rest)
                (length done + length part) audio).
Proof.
  induction part as [|p part IH]; intros done rest scores fb audio L.
  - destruct scores; [|discriminate].
    unfold entries_of, ret. cbn [submit_all combine map length repeat].
    now rewrite !app_nil_r, Nat.add_0_r.
  - destruct scores as [|s scores]; [discriminate|].
    cbn [submit_all]. unfold app_bind at 1.
    rewrite (handle_submission_current s _ p)
      by (cbn; now rewrite nth_error_app2, Nat.sub_diag by lia).
    cbn [feedback remaining_pairs current_pair_index audio_files].
    unfold app_bind at 1.
    replace (done ++ (p :: part) ++ rest) with ((done ++ [p]) ++ part ++ rest)
      by now rewrite <- app_assoc.
    replace (length done + 1) with (length (done ++ [p])) by now rewrite length_app.
    rewrite IH by (cbn in L; lia).
    unfold ret. cbn [repeat length]. f_equal. f_equal.
    + unfold entries_of. cbn [combine map fst snd]. now rewrite <- app_assoc.
    + rewrite length_app. cbn. lia.
Qed.

(** X12: submissions consume the queue from its front: after k of them, k no
    more than the length of the queue, all returned [True], the index is k,
    and the entries appended are the first k pairs of the queue, in the
    order of the queue, each with its score. *)
Theorem submit_all_front (queue : list pair_t) (scores : list Q)
    (fb : list value) (audio : list (string * list Byte.byte)) :
  length scores <= length queue ->
  submit_all scores (mk_session fb queue 0 audio) =
  (Ok (repeat true (length scores)),
   mk_session (fb ++ entries_of (firstn (length scores) queue) scores) queue
              (length scores) audio).
Proof.
  intros L.
  assert (F : length (firstn (length scores) queue) = length scores)
    by (rewrite length_firstn; lia).
  pose proof (submit_all_part (firstn (length scores) queue) []
                (skipn (length scores) queue) scores fb audio (eq_sym F)) as H.
  cbn [app length Nat.add] in H. rewrite firstn_skipn, F in H. exact H.
Qed.

Lemma submit_all_front_witness :
  submit_all [7 # 10; 2 # 10] (mk_session [] abc_queue 0 abc_audio) =
  (Ok (repeat true (length [7 # 10; 2 # 10])),
   mk_session ([] ++ entries_of (firstn (length [7 # 10; 2 # 10]) abc_queue)
                                [7 # 10; 2 # 10])
              abc_queue (length [7 # 10; 2 # 10]) abc_audio).
Proof.
  apply (submit_all_front abc_queue [7 # 10; 2 # 10] [] abc_audio). simpl. lia.
Defined.

Lemma submit_all_app (first then_ : list Q) (st : session_state) :
  submit_all (first ++ then_) st =
  match submit_all first st with
  | (Ok oks, st') =>
      match submit_all then_ st' with
      | (Ok oks', st'') => (Ok (oks ++ oks'), st'')
      | (Raise e, st'') => (Raise e, st'')
      end
  | (Raise e, st') => (Raise e, st')
  end.
Proof.
  revert st. induction first as [|s first IH]; intros st; cbn [app submit_all].
  - unfold ret. destruct (submit_all then_ st) as [[oks'|e] st'']; reflexivity.
  - unfold app_bind, ret.
    destruct (handle_submission s st) as [[ok|e] st1]; [|reflexivity].
    rewrite IH.
    destruct (submit_all first st1) as [[oks|e] st2]; [|reflexivity].
    destruct (submit_all then_ st2) as [[oks'|e] st3]; reflexivity.
Qed.

(** X13: one submission too many does not wrap around or return [False]:
    after a queue that is not empty has been rated to its end, the next call
    of the handler raises [IndexError], with every rating made so far still
    in the session. *)
Theorem submit_all_overrun (queue : list pair_t) (scores : list Q) (extra : Q)
    (fb : list value) (audio : list (string * list Byte.byte)) :
  queue <> [] ->
  length scores = length queue ->
  submit_all (scores ++ [extra]) (mk_session fb queue 0 audio) =
  (Raise IndexError,
   mk_session (fb ++ entries_of queue scores) queue (length queue) audio).
Proof.
  intros N L. rewrite submit_all_app.
  pose proof (submit_all_from queue [] scores fb audio L) as H.
  cbn [app length Nat.add] in H. rewrite H.
  cbn [submit_all]. unfold app_bind at 1.
  rewrite handle_submission_past_end; [reflexivity | assumption | cbn; lia].
Qed.

Lemma submit_all_overrun_witness :
  submit_all ([7 # 10; 2 # 10; 5 # 10] ++ [1 # 10]) (mk_session [] abc_queue 0 abc_audio) =
  (Raise IndexError,
   mk_session ([] ++ entries_of abc_queue [7 # 10; 2 # 10; 5 # 10]) abc_queue
              (length abc_queue) abc_audio).
Proof.
  apply (submit_all_overrun abc_queue [7 # 10; 2 # 10; 5 # 10] (1 # 10) [] abc_audio).
  - discriminate.
  - reflexivity.
Defined.

(** ** Changing the uploaded files *)

(** X14: when the uploaded files change, the new files are stored first, and
    the ratings given so far are kept unless a feedback file loads to a list
    that is not empty, which then replaces them.  If the builder returns, the
    queue is its shuffled result and the index is 0; if it raises, the new
    files and feedback stay stored with the old queue and index. *)
Theorem activate_outcomes (shuffle : list pair_t -> list pair_t) (w : widgets)
    (st : session_state) :
  audio_files (snd (activate shuffle w st)) = save_uploaded_files (uploaded_files w) /\
  feedback (snd (activate shuffle w st)) =
    (if truthy (loaded_feedback w) then loaded_feedback w else feedback st) /\
  (forall shown,
     fst (activate shuffle w st) = Ok shown ->
     current_pair_index (snd (activate shuffle w st)) = 0 /\
     exists pairs,
       generate_pairs (item_names w) (loaded_feedback w) = Ok pairs /\
       remaining_pairs (snd (activate shuffle w st)) = shuffle pairs) /\
  (forall e,
     fst (activate shuffle w st) = Raise e ->
     generate_pairs (item_names w) (loaded_feedback w) = Raise e /\
     remaining_pairs (snd (activate shuffle w st)) = remaining_pairs st /\
     current_pair_index (snd (activate shuffle w st)) = current_pair_index st).
Proof.
  destruct (activate_cases shuffle w st) as [[pairs [shown [G A]]] | [e [G A]]];
    rewrite A; cbn [fst snd activated audio_files feedback remaining_pairs
                    current_pair_index].
  - split; [reflexivity|]. split; [reflexivity|]. split.
    + intros _ _. split; [reflexivity | now exists pairs].
    + discriminate.
  - split; [reflexivity|]. split; [reflexivity|]. split.
    + discriminate.
    + intros e' E. inversion E; subst. auto.
Qed.

Lemma same_names_spec (xs ys : list string) :
  same_names xs ys = true <-> (forall x, In x xs <-> In x ys).
Proof.
  unfold same_names. rewrite andb_true_iff, !forallb_forall.
  assert (M : forall (x : string) l, existsb (String.eqb x) l = true <-> In x l).
  { intros x l. rewrite existsb_exists. split.
    - intros [y [Hy E]]. apply String.eqb_eq in E. now subst.
    - intros H. exists x. split; [assumption | apply String.eqb_refl]. }
  split.
  - intros [H1 H2] x. split; intros H; [apply M, H1, H | apply M, H2, H].
  - intros H. split; intros x Hx; apply M, H, Hx.
Qed.

Lemma main_cases (shuffle : list pair_t -> list pair_t) (w : widgets)
    (st : session_state) :
  (uploaded_files w = [] /\ main shuffle w st = (Ok [WritePleaseUpload], st)) \/
  (uploaded_files w <> [] /\
   same_names (map name (uploaded_files w)) (keys (audio_files st)) = false /\
   main shuffle w st = activate shuffle w st) \/
  (uploaded_files w <> [] /\
   same_names (map name (uploaded_files w)) (keys (audio_files st)) = true /\
   main shuffle w st = rate w st).
Proof.
  unfold main. destruct (uploaded_files w) as [|f ufs] eqn:U; [now left|].
  right. cbn [truthy]. unfold app_bind, read. cbn beta iota.
  destruct (same_names _ _) eqn:S; cbn [negb]; [right | left];
    (split; [discriminate | split; reflexivity]).
Qed.

(** X15: once the files are stored, a run with the same set of uploaded
    names does not load anything again: whatever the feedback upload, the
    order of the files or their bytes, the run is the rating page on the
    session as it is. *)
Theorem main_same_names (shuffle shuffle' : list pair_t -> list pair_t)
    (w w' : widgets) (st : session_state) :
  uploaded_files w' <> [] ->
  (forall x, In x (map name (uploaded_files w')) <-> In x (map name (uploaded_files w))) ->
  main shuffle' w' (snd (activate shuffle w st)) = rate w' (snd (activate shuffle w st)).
Proof.
  intros N S.
  assert (A : audio_files (snd (activate shuffle w st)) =
              save_uploaded_files (uploaded_files w)).
  { destruct (activate_cases shuffle w st) as [[pairs [shown [_ ->]]] | [e [_ ->]]];
      reflexivity. }
  destruct (main_cases shuffle' w' (snd (activate shuffle w st)))
    as [[U _] | [[_ [F _]] | [_ [_ M]]]]; [contradiction | | exact M].
  rewrite A in F. apply not_true_iff_false in F. exfalso. apply F.
  apply same_names_spec. intros x. rewrite S.
  change (save_uploaded_files (uploaded_files w)) with (save_into [] (uploaded_files w)).
  rewrite save_into_keys. cbn. tauto.
Qed.

Lemma main_same_names_witness :
  main (@rev pair_t) ba_resume (snd (activate (fun l => l) (mk_widgets abc_uploads None 5 false)
                                               initial_state)) =
  rate ba_resume (snd (activate (fun l => l) (mk_widgets abc_uploads None 5 false)
                                initial_state)).
Proof.
  apply (main_same_names (fun l => l) (@rev pair_t) (mk_widgets abc_uploads None 5 false)
           ba_resume initial_state).
  - discriminate.
  - intros x. reflexivity.
Defined.

(** ** What the page can raise *)

Lemma comprehension_raise_inv {A B} (elt : A -> result B) (xs : list A) (e : exn) :
  comprehension elt xs = Raise e -> exists x, In x xs /\ elt x = Raise e.
Proof.
  induction xs as [|x xs IH]; cbn [comprehension]; [discriminate|].
  destruct (elt x) as [y|e0] eqn:Ex; cbn [bind].
  - destruct (comprehension elt xs) as [ys|e1]; cbn [bind]; [discriminate|].
    intros E. inversion E; subst. destruct (IH eq_refl) as [x' [Hx' Ex']].
    exists x'. split; [now right | assumption].
  - intros E. inversion E; subst. exists x. split; [now left | assumption].
Qed.

Lemma rated_tuple_raises (k1 k2 : string) (f : value) (e : exn) :
  rated_tuple k1 k2 f = Raise e -> e = TypeError \/ e = KeyError.
Proof.
  unfold rated_tuple.
  assert (G : forall k r, getitem f k = Raise r -> r = TypeError \/ r = KeyError).
  { intros k r. destruct f; cbn [getitem]; try (intros E; inversion E; now left).
    destruct (dict_get items k); [discriminate | intros E; inversion E; now right]. }
  destruct (getitem f k1) as [a|r] eqn:Ea; cbn [bind];
    [|intros E; inversion E; subst; eauto].
  destruct (getitem f k2) as [b|r] eqn:Eb; cbn [bind];
    [|intros E; inversion E; subst; eauto].
  destruct (hashable a && hashable b); [discriminate|].
  intros E; inversion E; now left.
Qed.

Lemma generate_pairs_raises (file_names : list string) (fs : list value) (e : exn) :
  generate_pairs file_names fs = Raise e -> e = TypeError \/ e = KeyError.
Proof.
  destruct fs as [|f0 rest] eqn:F; [discriminate|].
  rewrite <- F. rewrite generate_pairs_nonempty by (rewrite F; discriminate).
  destruct (comprehension _ fs) as [ra|e1] eqn:Ea; cbn [bind].
  - destruct (comprehension (rated_tuple "song_b" "song_a") fs) as [rb|e2] eqn:Eb;
      cbn [bind]; [discriminate|].
    intros E; inversion E; subst.
    destruct (comprehension_raise_inv _ _ _ Eb) as [x [_ Ex]].
    now apply rated_tuple_raises in Ex.
  - intros E; inversion E; subst.
    destruct (comprehension_raise_inv _ _ _ Ea) as [x [_ Ex]].
    now apply rated_tuple_raises in Ex.
Qed.

Lemma rate_raises (w : widgets) (st st' : session_state) (e : exn) :
  current_pair_index st <= length (remaining_pairs st) ->
  rate w st = (Raise e, st') -> e = KeyError.
Proof.
  intros L. unfold rate, app_bind, read, lift, ret, index, audio_of.
  destruct (length (audio_files st) <? 2); [discriminate|].
  destruct (Nat.ltb_spec (current_pair_index st) (length (remaining_pairs st)))
    as [Lt | Ge]; [|discriminate].
  destruct (nth_error (remaining_pairs st) (current_pair_index st)) as [p|] eqn:Hp.
  2: { apply nth_error_None in Hp. lia. }
  destruct (dict_get (audio_files st) (fst p));
    [|intros E; inversion E; reflexivity].
  destruct (dict_get (audio_files st) (snd p));
    [|intros E; inversion E; reflexivity].
  destruct (submit_clicked w); [|discriminate].
  rewrite (handle_submission_current _ _ p Hp). discriminate.
Qed.

Lemma main_keeps_index (shuffle : list pair_t -> list pair_t) (w : widgets)
    (st : session_state) :
  current_pair_index st <= length (remaining_pairs st) ->
  current_pair_index (snd (main shuffle w st))
  <= length (remaining_pairs (snd (main shuffle w st))).
Proof.
  intros L.
  destruct (main_cases shuffle w st) as [[_ M] | [[_ [_ M]] | [_ [_ M]]]]; rewrite M.
  - exact L.
  - destruct (activate_cases shuffle w st) as [[pairs [shown [_ ->]]] | [e [_ ->]]];
      cbn [snd activated current_pair_index remaining_pairs]; [lia | exact L].
  - destruct (rate w st) as [r st'] eqn:R. apply rate_feedback in R.
    destruct R as [-> | [p [Hp ->]]]; cbn [snd]; [exact L|].
    cbn [current_pair_index remaining_pairs].
    assert (current_pair_index st < length (remaining_pairs st))
      by (apply nth_error_Some; rewrite Hp; discriminate).
    lia.
Qed.

(** X16: through the page the index never passes the end of the queue:
    after any runs of [main] on a fresh session, with any widgets and any
    shuffles, also runs that raised, the index is at most the length of the
    queue, and no further run raises [IndexError]; what a run can raise is
    the [TypeError] or [KeyError] of the builder, or a [KeyError] of an
    audio lookup. *)
Theorem main_runs_index_in_bounds
    (runs : list ((list pair_t -> list pair_t) * widgets)) :
  current_pair_index (main_runs runs initial_state)
  <= length (remaining_pairs (main_runs runs initial_state)) /\
  (forall shuffle w e,
     fst (main shuffle w (main_runs runs initial_state)) = Raise e ->
     e = TypeError \/ e = KeyError).
Proof.
  assert (I : forall st,
             current_pair_index st <= length (remaining_pairs st) ->
             current_pair_index (main_runs runs st)
             <= length (remaining_pairs (main_runs runs st))).
  { induction runs as [|[sh w] runs IH]; intros st L; cbn [main_runs]; [exact L|].
    apply IH. now apply main_keeps_index. }
  assert (L := I initial_state (Nat.le_0_l _)). split; [exact L|].
  intros shuffle w e E.
  destruct (main_cases shuffle w (main_runs runs initial_state))
    as [[_ M] | [[_ [_ M]] | [_ [_ M]]]]; rewrite M in E.
  - discriminate.
  - destruct (activate_cases shuffle w (main_runs runs initial_state))
      as [[pairs [shown [_ A]]] | [e' [G A]]]; rewrite A in E; cbn [fst] in E;
      [discriminate|].
    inversion E; subst. now apply generate_pairs_raises in G.
  - destruct (rate w (main_runs runs initial_state)) as [r st'] eqn:R.
    cbn [fst] in E. subst r. right. now apply (rate_raises _ _ _ _ L R).
Qed.

(** ** The progress shown *)

Lemma rate_shows (w : widgets) (st st' : session_state) (rated total : nat)
    (more : list message) :
  rate w st = (Ok (WriteRated rated total :: more), st') ->
  rated = length (feedback st) /\
  total = length (remaining_pairs st) + length (feedback st).
Proof.
  unfold rate, app_bind, read, lift, ret, index, audio_of.
  destruct (length (audio_files st) <? 2); [intros E; inversion E; auto|].
  destruct (current_pair_index st <? length (remaining_pairs st));
    [|intros E; inversion E; auto].
  destruct (nth_error (remaining_pairs st) (current_pair_index st)) as [p|];
    [|discriminate].
  destruct (dict_get (audio_files st) (fst p)); [|discriminate].
  destruct (dict_get (audio_files st) (snd p)); [|discriminate].
  destruct (submit_clicked w).
  - destruct (handle_submission _ st) as [[ok|e] st1]; [|discriminate].
    intros E; inversion E; auto.
  - intros E; inversion E; auto.
Qed.

(** X17: the total the page writes is the length of the queue plus the
    number of feedback entries, and a rating adds an entry without
    shortening the queue: after each rating the page shows one more pair
    rated out of one more pair in total. *)
Theorem progress_total_grows (w w' : widgets) (s : Q)
    (st before rated_st after : session_state)
    (rated total rated' total' : nat) (more more' : list message) :
  rate w st = (Ok (WriteRated rated total :: more), before) ->
  handle_submission s st = (Ok true, rated_st) ->
  rate w' rated_st = (Ok (WriteRated rated' total' :: more'), after) ->
  rated' = rated + 1 /\ total' = total + 1.
Proof.
  intros R H R'. apply rate_shows in R. apply rate_shows in R'.
  destruct R as [-> ->]. destruct R' as [-> ->].
  destruct (handle_submission_cases s st) as [[_ E] | [[p [_ E]] | [_ [_ E]]]];
    rewrite E in H; try discriminate.
  inversion H; subst rated_st.
  cbn [feedback remaining_pairs]. rewrite length_app. cbn [length]. lia.
Qed.

Lemma progress_total_grows_witness :
  1 = 0 + 1 /\ 4 = 3 + 1.
Proof.
  apply (progress_total_grows (mk_widgets abc_uploads None 7 false)
           (mk_widgets abc_uploads None 7 false) (7 # 10)
           abc_start abc_start abc_after_one abc_after_one
           0 3 1 4
           [WriteSongs ("a.wav", "b.wav")%string] [WriteSongs ("a.wav", "c.wav")%string]);
    reflexivity.
Defined.

(** ** The rating page on a session it installed *)

Lemma dict_get_in_keys {V} (items : list (string * V)) (k : string) :
  In k (keys items) -> exists v, dict_get items k = Some v.
Proof.
  unfold keys, dict_get. induction items as [|[k0 v0] rest IH]; [contradiction|].
  cbn [map fst In find]. intros H.
  destruct (String.eqb_spec k k0) as [-> | N]; [now exists v0|].
  apply IH. destruct H as [E | H]; [congruence | assumption].
Qed.

Lemma reachable_queue_names (shuffle : list pair_t -> list pair_t) (w : widgets)
    (st : session_state) :
  (forall l, Permutation l (shuffle l)) ->
  reachable shuffle w st ->
  forall p, In p (remaining_pairs st) ->
            In (fst p) (keys (audio_files st)) /\ In (snd p) (keys (audio_files st)).
Proof.
  intros P Hr. induction Hr as [shown st H | s r st st' Hr IH H].
  - apply (first_run_cases shuffle) in H. destruct H as [[_ ->] | [pairs [G ->]]].
    + intros p [].
    + cbn [activated remaining_pairs audio_files]. intros [a b] Hp.
      apply (Permutation_in _ (Permutation_sym (P pairs))) in Hp.
      destruct (generate_pairs_kept _ _ _ G) as [keep ->].
      apply filter_In in Hp. destruct Hp as [Hp _].
      apply in_all_pairs_members in Hp. exact Hp.
  - destruct (handle_submission_cases s st) as [[_ E] | [[p [_ E]] | [_ [_ E]]]];
      rewrite E in H; inversion H; subst; exact IH.
Qed.

(** X18: on a session installed by a first run of the page and then rated,
    the rating page never raises: every pair of the queue is of two stored
    files, so both audio lookups succeed, and the index is looked up only
    where the queue has a pair.  The session it leaves is again such a
    session. *)
Theorem rate_on_reachable (shuffle : list pair_t -> list pair_t) (w w' : widgets)
    (st : session_state) :
  (forall l, Permutation l (shuffle l)) ->
  reachable shuffle w st ->
  exists shown st', rate w' st = (Ok shown, st') /\ reachable shuffle w st'.
Proof.
  intros P Hr. assert (Q := reachable_queue_names shuffle w st P Hr).
  unfold rate, app_bind, read, lift, ret, index, audio_of.
  destruct (length (audio_files st) <? 2); [now eauto|].
  destruct (Nat.ltb_spec (current_pair_index st) (length (remaining_pairs st)))
    as [Lt | Ge]; [|now eauto].
  destruct (nth_error (remaining_pairs st) (current_pair_index st)) as [p|] eqn:Hp.
  2: { apply nth_error_None in Hp. lia. }
  destruct (Q p (nth_error_In _ _ Hp)) as [Qa Qb].
  destruct (dict_get_in_keys _ _ Qa) as [va ->].
  destruct (dict_get_in_keys _ _ Qb) as [vb ->].
  destruct (submit_clicked w'); [|now eauto].
  assert (H := handle_submission_current (slider (slider_steps w')) st p Hp).
  rewrite H. do 2 eexists. split; [reflexivity|].
  exact (reach_submission shuffle w _ _ st _ Hr H).
Qed.

Lemma rate_on_reachable_witness :
  exists shown st',
    rate (mk_widgets abc_uploads None 7 true) abc_start = (Ok shown, st') /\
    reachable (fun l => l) (mk_widgets abc_uploads None 5 false) st'.
Proof.
  apply (rate_on_reachable (fun l => l) (mk_widgets abc_uploads None 5 false)
           (mk_widgets abc_uploads None 7 true) abc_start).
  - intros l. apply Permutation_refl.
  - apply (reach_first_run _ _ []). reflexivity.
Defined.

(** ** The download of a session *)

Lemma loaded_passes (feedback_file : json_text) :
  entries_pass (fst (load_previous_feedback feedback_file)) = Ok true.
Proof.
  unfold load_previous_feedback, load_previous_feedback_try.
  destruct feedback_file as [| |v]; cbn [json_loads bind]; [reflexivity | reflexivity |].
  destruct v; try reflexivity.
  destruct (entries_pass l) as [[|]|e] eqn:E; cbn [bind fst]; [exact E | reflexivity |].
  destruct e; reflexivity.
Qed.

Lemma reachable_feedback_passes (shuffle : list pair_t -> list pair_t) (w : widgets)
    (st : session_state) :
  reachable shuffle w st -> entries_pass (feedback st) = Ok true.
Proof.
  induction 1 as [shown st H | s r st st' Hr IH H].
  - apply (first_run_cases shuffle) in H. destruct H as [[_ ->] | [pairs [_ ->]]];
      [reflexivity|].
    cbn [activated feedback]. unfold loaded_feedback.
    destruct (feedback_upload w) as [feedback_file|]; [|reflexivity].
    destruct (fst (load_previous_feedback feedback_file)) eqn:L; [reflexivity|].
    cbn [truthy]. rewrite <- L. apply loaded_passes.
  - destruct (handle_submission_cases s st) as [[_ E] | [[p [_ E]] | [_ [_ E]]]];
      rewrite E in H; inversion H; subst; try exact IH.
    cbn [feedback]. now rewrite (entries_pass_app _ _ IH).
Qed.

(** X19: the download of a session always loads again: on every session
    installed by a first run of the page and then rated, with or without a
    previous feedback file, the exported document passes the loader, which
    returns the feedback of the session whole and shows no error. *)
Theorem export_loads_again (shuffle : list pair_t -> list pair_t) (w : widgets)
    (st : session_state) (doc : json_text) :
  reachable shuffle w st ->
  export_feedback st = Some doc ->
  load_previous_feedback doc = (feedback st, []).
Proof.
  intros Hr X. apply reachable_feedback_passes in Hr.
  unfold export_feedback in X. destruct (truthy (feedback st)); [|discriminate].
  inversion X. unfold load_previous_feedback, load_previous_feedback_try, json_dumps.
  cbn [json_loads bind]. now rewrite Hr.
Qed.

Lemma export_loads_again_witness :
  load_previous_feedback (json_dumps (VList (feedback ba_resumed))) =
  (feedback ba_resumed, []).
Proof.
  apply (export_loads_again (@rev pair_t) ba_resume ba_resumed).
  - apply (reach_submission _ _ (7 # 10) (Ok true)
             (mk_session [feedback_entry ("b.wav", "a.wav")%string (4 # 10)]
                         [("b.wav", "c.wav"); ("a.wav", "c.wav")]%string 0 abc_audio));
      [|reflexivity].
    apply (reach_first_run _ _ [SuccessLoaded 1]). reflexivity.
  - reflexivity.
Defined.

(** ** Fewer than two files *)

Lemma generate_pairs_few_names_aux (file_names : list string) (fs : list value)
    (pairs : list pair_t) :
  length file_names < 2 -> generate_pairs file_names fs = Ok pairs -> pairs = [].
Proof.
  intros L E. apply generate_pairs_filter in E.
  destruct file_names as [|x [|y l]]; [exact E | exact E | cbn in L; lia].
Qed.

(** X20: with fewer than two different names uploaded nothing can be rated:
    the installed queue is empty and stays so, the handler returns [False],
    and the page shows the warning and leaves the session alone, whatever is
    clicked. *)
Theorem few_files_nothing_to_rate (shuffle : list pair_t -> list pair_t)
    (w w' : widgets) (s : Q) (st : session_state) :
  (forall l, Permutation l (shuffle l)) ->
  length (item_names w) < 2 ->
  reachable shuffle w st ->
  remaining_pairs st = [] /\
  handle_submission s st = (Ok false, st) /\
  rate w' st =
    (Ok [WriteRated (length (feedback st)) (length (feedback st)); WarningTwoFiles], st).
Proof.
  intros P L Hr.
  assert (I : remaining_pairs st = [] /\
              audio_files st = save_uploaded_files (uploaded_files w)).
  { induction Hr as [shown st H | s0 r st st' Hr IH H].
    - apply (first_run_cases shuffle) in H. destruct H as [[U ->] | [pairs [G ->]]].
      + rewrite U. split; reflexivity.
      + cbn [activated remaining_pairs audio_files]. split; [|reflexivity].
        rewrite (generate_pairs_few_names_aux (item_names w) (loaded_feedback w) pairs L G).
        apply Permutation_nil, P.
    - destruct IH as [Iq Ia].
      rewrite (handle_submission_empty s0 st Iq) in H. inversion H; subst. auto. }
  destruct I as [Iq Ia]. split; [exact Iq|].
  split; [now apply handle_submission_empty|].
  unfold rate, app_bind, read, ret. rewrite Iq, Ia, <- item_names_length.
  destruct (Nat.ltb_spec (length (item_names w)) 2); [reflexivity | lia].
Qed.

Lemma few_files_nothing_to_rate_witness :
  remaining_pairs (mk_session [] [] 0 [("a.wav"%string, [])]) = [] /\
  handle_submission (7 # 10) (mk_session [] [] 0 [("a.wav"%string, [])]) =
    (Ok false, mk_session [] [] 0 [("a.wav"%string, [])]) /\
  rate (mk_widgets [mk_upload "a.wav" []] None 7 true)
       (mk_session [] [] 0 [("a.wav"%string, [])]) =
    (Ok [WriteRated (length (feedback (mk_session [] [] 0 [("a.wav"%string, [])])))
                    (length (feedback (mk_session [] [] 0 [("a.wav"%string, [])])));
         WarningTwoFiles],
     mk_session [] [] 0 [("a.wav"%string, [])]).
Proof.
  apply (few_files_nothing_to_rate (@rev pair_t)
           (mk_widgets [mk_upload "a.wav" []; mk_upload "a.wav" []] None 5 false)).
  - apply Permutation_rev.
  - simpl. lia.
  - apply (reach_first_run _ _ []). reflexivity.
Defined.

(** ** Every pair judged once *)

Lemma firstn_succ_nth {A} (l : list A) :
  forall i x, nth_error l i = Some x -> firstn (S i) l = firstn i l ++ [x].
Proof.
  induction l as [|a l IH]; intros [|i] x H; try discriminate.
  - cbn in H. inversion H. reflexivity.
  - cbn [nth_error] in H. cbn [firstn app]. f_equal.
    change (firstn (S i) l = firstn i l ++ [x]). now apply IH.
Qed.

Lemma entries_of_snoc (ps : list pair_t) :
  forall (ss : list Q) (p : pair_t) (s : Q),
    length ss = length ps ->
    entries_of (ps ++ [p]) (ss ++ [s]) = entries_of ps ss ++ [feedback_entry p s].
Proof.
  unfold entries_of.
  induction ps as [|q ps IH]; intros [|s0 ss] p s L; try discriminate; [reflexivity|].
  cbn [app combine map fst snd]. f_equal. apply IH. cbn in L. lia.
Qed.

Lemma judgments_of_app (fs gs : list value) (p : pair_t) :
  judgments_of (fs ++ gs) p = judgments_of fs p + judgments_of gs p.
Proof. unfold judgments_of. now rewrite filter_app, length_app. Qed.

Lemma judgments_of_pairs (fs : list value) (p : pair_t) :
  forall ps, map judged_pair fs = map Some ps ->
             judgments_of fs p = length (filter (same_pair p) ps).
Proof.
  unfold judgments_of.
  induction fs as [|f fs IH]; intros [|q ps] E; try discriminate; [reflexivity|].
  cbn [map] in E. inversion E as [[Ef Er]]. cbn [filter]. rewrite Ef.
  destruct (same_pair p q); cbn [length]; now rewrite (IH ps Er).
Qed.

Lemma filter_length_permutation {A} (g : A -> bool) (l l' : list A) :
  Permutation l l' -> length (filter g l) = length (filter g l').
Proof.
  induction 1 as [|x l l' _ IH|x y l|l l' l'' _ IH1 _ IH2]; cbn [filter].
  - reflexivity.
  - destruct (g x); cbn [length]; now rewrite IH.
  - destruct (g x), (g y); reflexivity.
  - now rewrite IH1.
Qed.

Lemma filter_length_firstn {A} (g : A -> bool) (n : nat) (l : list A) :
  length (filter g (firstn n l)) <= length (filter g l).
Proof.
  rewrite <- (firstn_skipn n l) at 2. rewrite filter_app, length_app. lia.
Qed.

Lemma filter_length_zero {A} (g : A -> bool) (l : list A) :
  (forall y, In y l -> g y = false) -> length (filter g l) = 0.
Proof.
  induction l as [|a l IH]; intros H; cbn [filter]; [reflexivity|].
  rewrite (H a (or_introl eq_refl)). apply IH. intros; apply H; now right.
Qed.

Lemma filter_length_one {A} (g : A -> bool) (l : list A) (x : A) :
  NoDup l -> In x l -> g x = true ->
  (forall y, In y l -> g y = true -> y = x) ->
  length (filter g l) = 1.
Proof.
  induction 1 as [|a l Ha Hl IH]; intros Hx Gx U; [contradiction|].
  cbn [filter]. destruct (g a) eqn:Ga.
  - assert (a = x) by (apply U; [now left | assumption]). subst a.
    cbn [length]. rewrite filter_length_zero; [reflexivity|].
    intros y Hy. destruct (g y) eqn:Gy; [|reflexivity].
    assert (y = x) by (apply U; [now right | assumption]). subst y. contradiction.
  - apply IH; [|assumption|intros y Hy; apply U; now right].
    destruct Hx as [-> | Hx]; [congruence | assumption].
Qed.

Lemma same_pair_refl (p : pair_t) : same_pair p p = true.
Proof. apply same_pair_spec. now left. Qed.

Lemma same_pair_enumerated (file_names : list string) (p q : pair_t) :
  NoDup file_names ->
  In p (all_pairs file_names) -> In q (all_pairs file_names) ->
  same_pair p q = true -> p = q.
Proof.
  intros Hnd Hp Hq S. apply same_pair_spec in S. destruct S as [S | S]; [exact S|].
  exfalso. destruct q as [c d]. cbn [fst snd] in S. subst p.
  now apply (all_pairs_one_orientation file_names c d Hnd Hq).
Qed.

Lemma judged_once (ps : list pair_t) (p : pair_t) :
  ForallOrdPairs (fun q r => same_pair q r = false) ps ->
  existsb (same_pair p) ps = true ->
  length (filter (same_pair p) ps) = 1.
Proof.
  induction 1 as [|q ps Hq _ IH]; [discriminate|].
  cbn [existsb filter]. destruct (same_pair p q) eqn:S; cbn [orb].
  - intros _. cbn [length]. rewrite filter_length_zero; [reflexivity|].
    intros r Hr. rewrite Forall_forall in Hq. specialize (Hq r Hr).
    destruct (same_pair p r) eqn:Sr; [|reflexivity].
    rewrite same_pair_sym in S. now rewrite (same_pair_trans _ _ _ S Sr) in Hq.
  - exact IH.
Qed.

(** How often a pair of the enumeration is judged by feedback that fits the
    item set together with the first pairs of the queue built from it. *)
Lemma judged_count (file_names : list string) (ps queue : list pair_t)
    (n : nat) (p : pair_t) :
  NoDup file_names ->
  ForallOrdPairs (fun q r => same_pair q r = false) ps ->
  Permutation (filter (fun q => negb (existsb (same_pair q) ps)) (all_pairs file_names))
              queue ->
  In p (all_pairs file_names) ->
  length (filter (same_pair p) ps) + length (filter (same_pair p) (firstn n queue)) <= 1 /\
  length (filter (same_pair p) ps) + length (filter (same_pair p) queue) = 1.
Proof.
  intros Hnd Hord P Hp.
  set (kept := filter (fun q => negb (existsb (same_pair q) ps)) (all_pairs file_names)) in *.
  assert (Q : length (filter (same_pair p) queue) = length (filter (same_pair p) kept))
    by (symmetry; now apply filter_length_permutation).
  assert (F := filter_length_firstn (same_pair p) n queue).
  assert (K : forall q, In q kept -> same_pair p q = true -> q = p).
  { intros q Hq S. symmetry. apply (same_pair_enumerated file_names); auto.
    unfold kept in Hq. now apply filter_In in Hq. }
  destruct (existsb (same_pair p) ps) eqn:J.
  - rewrite (judged_once ps p Hord J).
    assert (Z : length (filter (same_pair p) kept) = 0).
    { apply filter_length_zero. intros q Hq.
      destruct (same_pair p q) eqn:S; [|reflexivity].
      rewrite (K q Hq S) in Hq. unfold kept in Hq. apply filter_In in Hq.
      destruct Hq as [_ Hq]. rewrite J in Hq. discriminate. }
    lia.
  - assert (Z : length (filter (same_pair p) ps) = 0).
    { apply filter_length_zero. intros q Hq.
      destruct (same_pair p q) eqn:S; [|reflexivity].
      assert (E : existsb (same_pair p) ps = true)
        by (apply existsb_exists; now exists q).
      congruence. }
    assert (O : length (filter (same_pair p) kept) = 1).
    { apply (filter_length_one _ _ p).
      - unfold kept. apply NoDup_filter. now apply all_pairs_NoDup.
      - unfold kept. apply filter_In. split; [assumption | now rewrite J].
      - apply same_pair_refl.
      - exact K. }
    lia.
Qed.

Lemma fits_nothing (prior : list value) : fits_item_set [] prior -> prior = [].
Proof.
  intros [ps [E [Hin _]]]. destruct ps as [|[a b] ps].
  - destruct prior; [reflexivity | discriminate].
  - destruct (Hin a b (or_introl eq_refl)) as [[] _].
Qed.

(** The index of a session stays within the queue. *)
Lemma reachable_index (shuffle : list pair_t -> list pair_t) (w : widgets)
    (st : session_state) :
  reachable shuffle w st -> current_pair_index st <= length (remaining_pairs st).
Proof.
  induction 1 as [shown st H | s r st st' Hr IH H].
  - apply (first_run_cases shuffle) in H.
    destruct H as [[_ ->] | [pairs [_ ->]]]; cbn; lia.
  - destruct (handle_submission_cases s st) as [[_ E] | [[q [Hq E]] | [_ [_ E]]]];
      rewrite E in H; inversion H; subst; auto.
    cbn [current_pair_index remaining_pairs].
    assert (current_pair_index st < length (remaining_pairs st))
      by (apply nth_error_Some; rewrite Hq; discriminate).
    lia.
Qed.

(** The feedback of a session is the loaded feedback followed by the pairs
    of the queue before the index, each with a score. *)
Lemma reachable_feedback (shuffle : list pair_t -> list pair_t) (w : widgets)
    (st : session_state) :
  (forall l, Permutation l (shuffle l)) ->
  fits_item_set (item_names w) (loaded_feedback w) ->
  reachable shuffle w st ->
  Permutation (filter (fun p => negb (judged_in (loaded_feedback w) p))
                      (all_pairs (item_names w)))
              (remaining_pairs st) /\
  exists scores,
    length scores = current_pair_index st /\
    feedback st = loaded_feedback w ++
                  entries_of (firstn (current_pair_index st) (remaining_pairs st)) scores.
Proof.
  intros P Hfit Hr. induction Hr as [shown st H | s r st st' Hr IH H].
  - apply (first_run_cases shuffle) in H. destruct H as [[U ->] | [pairs [G ->]]].
    + assert (N : item_names w = []) by (unfold item_names; now rewrite U).
      rewrite N in *. rewrite (fits_nothing _ Hfit).
      split; [constructor | now exists []].
    + cbn [activated remaining_pairs feedback current_pair_index].
      apply generate_pairs_filter in G. subst pairs.
      split; [apply P|]. exists []. split; [reflexivity|].
      cbn [firstn]. unfold entries_of. cbn [combine map]. rewrite app_nil_r.
      now destruct (loaded_feedback w).
  - destruct IH as [Iq [scores [Il If]]].
    destruct (handle_submission_cases s st) as [[_ E] | [[p [Hp E]] | [_ [_ E]]]];
      rewrite E in H; inversion H; subst; try (split; [exact Iq | now exists scores]).
    cbn [remaining_pairs current_pair_index feedback]. split; [exact Iq|].
    exists (scores ++ [s]). split; [rewrite length_app; cbn; lia|].
    rewrite Nat.add_1_r, (firstn_succ_nth _ _ _ Hp), If, <- app_assoc. f_equal.
    symmetry. apply entries_of_snoc.
    rewrite length_firstn.
    assert (current_pair_index st < length (remaining_pairs st))
      by (apply nth_error_Some; rewrite Hp; discriminate).
    lia.
Qed.

(** X21: in a session resumed from feedback that fits the item set, no pair
    of the item set is ever judged twice, counting both orders and both the
    loaded and the new entries; and once the queue is rated to its end,
    every pair of the item set is judged exactly once. *)
Theorem every_pair_judged_once (shuffle : list pair_t -> list pair_t) (w : widgets)
    (st : session_state) (p : pair_t) :
  (forall l, Permutation l (shuffle l)) ->
  fits_item_set (item_names w) (loaded_feedback w) ->
  reachable shuffle w st ->
  In p (all_pairs (item_names w)) ->
  judgments_of (feedback st) p <= 1 /\
  (current_pair_index st = length (remaining_pairs st) ->
   judgments_of (feedback st) p = 1).
Proof.
  intros P Hfit Hr Hp.
  destruct (reachable_feedback shuffle w st P Hfit Hr) as [Iq [scores [Il If]]].
  destruct Hfit as [ps [E [_ Hord]]].
  assert (Iq' : Permutation
                  (filter (fun q => negb (existsb (same_pair q) ps))
                          (all_pairs (item_names w)))
                  (remaining_pairs st)).
  { erewrite filter_ext; [exact Iq|].
    intros q. cbn beta. f_equal. symmetry. now apply judged_in_pairs. }
  destruct (judged_count (item_names w) ps (remaining_pairs st) (current_pair_index st) p
              (save_uploaded_files_NoDup _) Hord Iq' Hp) as [C1 C2].
  assert (L : length scores =
              length (firstn (current_pair_index st) (remaining_pairs st))).
  { rewrite length_firstn, Il. assert (B := reachable_index shuffle w st Hr). lia. }
  rewrite If, judgments_of_app, (judgments_of_pairs _ p ps E).
  rewrite (judgments_of_pairs _ p _ (entries_of_pairs _ scores L)).
  split; [exact C1|].
  intros Done. rewrite Done, firstn_all in *. exact C2.
Qed.

Lemma every_pair_judged_once_witness :
  judgments_of (feedback ba_resumed) ("a.wav", "b.wav")%string <= 1 /\
  (current_pair_index ba_resumed = length (remaining_pairs ba_resumed) ->
   judgments_of (feedback ba_resumed) ("a.wav", "b.wav")%string = 1).
Proof.
  apply (every_pair_judged_once (@rev pair_t) ba_resume ba_resumed).
  - apply Permutation_rev.
  - exists [("b.wav", "a.wav")%string]. split; [reflexivity|]. split.
    + intros a b [E | []]. inversion E; subst. cbn.
      repeat split; auto; discriminate.
    + repeat constructor.
  - apply (reach_submission _ _ (7 # 10) (Ok true)
             (mk_session [feedback_entry ("b.wav", "a.wav")%string (4 # 10)]
                         [("b.wav", "c.wav"); ("a.wav", "c.wav")]%string 0 abc_audio));
      [|reflexivity].
    apply (reach_first_run _ _ [SuccessLoaded 1]). reflexivity.
  - simpl. auto.
Defined.

(** * The count of the pairs, and the round trip through the download *)

(** ** Pairs accounted for after an activation *)

Lemma stored_names (ufs : list uploaded_file) (x : string) :
  In x (keys (save_uploaded_files ufs)) <-> In x (map name ufs).
Proof.
  change (save_uploaded_files ufs) with (save_into [] ufs).
  rewrite save_into_keys. cbn. tauto.
Qed.

(** The stored files are as many as the different uploaded names. *)
Lemma stored_count (ufs : list uploaded_file) :
  length (save_uploaded_files ufs) = length (nodup string_dec (map name ufs)).
Proof.
  rewrite <- (length_map fst (save_uploaded_files ufs)).
  apply Permutation_length, NoDup_Permutation.
  - apply save_uploaded_files_NoDup.
  - apply NoDup_nodup.
  - intros x. rewrite nodup_In. apply stored_names.
Qed.

(** C3, as the code has it: take an activation on any earlier session, and
    any submissions after it.  When the loaded feedback fits the item set
    (every entry a judgment of two different stored items, no pair judged
    twice) and, if nothing is loaded, the earlier session held no feedback,
    the index stays within the queue and
    [len(feedback) + len(remaining_pairs) - current_pair_index] is
    N*(N-1)/2, for N the number of stored files, which is the number of
    different uploaded names. *)
Theorem installed_pairs_accounted_for (shuffle : list pair_t -> list pair_t)
    (w : widgets) (st0 st : session_state) :
  (forall l, Permutation l (shuffle l)) ->
  fits_item_set (item_names w) (loaded_feedback w) ->
  (loaded_feedback w = [] -> feedback st0 = []) ->
  installed shuffle w st0 st ->
  length (audio_files st) = length (nodup string_dec (map name (uploaded_files w))) /\
  current_pair_index st <= length (remaining_pairs st) /\
  length (feedback st) + length (remaining_pairs st) - current_pair_index st =
  length (audio_files st) * (length (audio_files st) - 1) / 2.
Proof.
  intros P Hfit Hkept Hi.
  assert (I : audio_files st = save_uploaded_files (uploaded_files w) /\
              current_pair_index st <= length (remaining_pairs st) /\
              length (feedback st) + length (remaining_pairs st) =
              length (item_names w) * (length (item_names w) - 1) / 2
              + current_pair_index st).
  { induction Hi as [shown st H | s r st st' Hi IH H].
    - destruct (activate_cases shuffle w st0) as [[pairs [shown' [G A]]] | [e [_ A]]];
        rewrite A in H; inversion H; subst; clear H.
      destruct (generate_pairs_fitting (item_names w) (loaded_feedback w)
                  (save_uploaded_files_NoDup _) Hfit) as [pairs' [G' L]].
      rewrite G in G'. inversion G'; subst pairs'.
      unfold activated. cbn [audio_files current_pair_index remaining_pairs feedback].
      rewrite <- (Permutation_length (P pairs)).
      split; [reflexivity|]. split; [lia|].
      destruct (loaded_feedback w) eqn:E; cbn [truthy]; [|lia].
      rewrite (Hkept eq_refl). cbn [length] in *. lia.
    - destruct IH as [Ia [Ii Il]].
      destruct (handle_submission_cases s st) as [[_ E] | [[p [Hp E]] | [_ [_ E]]]];
        rewrite E in H; inversion H; subst; auto.
      assert (Lt : current_pair_index st < length (remaining_pairs st))
        by (apply nth_error_Some; rewrite Hp; discriminate).
      cbn [audio_files current_pair_index remaining_pairs feedback].
      rewrite length_app. cbn [length]. repeat split; [assumption | lia | lia]. }
  destruct I as [Ia [Ii Il]].
  split; [rewrite Ia; apply stored_count|]. split; [assumption|].
  rewrite Ia, <- item_names_length. lia.
Qed.

Lemma installed_pairs_accounted_for_witness :
  length (audio_files ba_resumed) =
    length (nodup string_dec (map name (uploaded_files ba_resume))) /\
  current_pair_index ba_resumed <= length (remaining_pairs ba_resumed) /\
  length (feedback ba_resumed) + length (remaining_pairs ba_resumed)
  - current_pair_index ba_resumed =
  length (audio_files ba_resumed) * (length (audio_files ba_resumed) - 1) / 2.
Proof.
  apply (installed_pairs_accounted_for (@rev pair_t) ba_resume abc_after_one ba_resumed).
  - apply Permutation_rev.
  - exists [("b.wav", "a.wav")%string]. split; [reflexivity|]. split.
    + intros a b [E | []]. inversion E; subst. cbn.
      repeat split; auto; discriminate.
    + repeat constructor.
  - discriminate.
  - apply (installed_submission _ _ _ (7 # 10) (Ok true)
             (mk_session [feedback_entry ("b.wav", "a.wav")%string (4 # 10)]
                         [("b.wav", "c.wav"); ("a.wav", "c.wav")]%string 0 abc_audio));
      [|reflexivity].
    apply (installed_activated _ _ _ [SuccessLoaded 1]). reflexivity.
Defined.

(** Without the condition on the earlier session the count fails as well:
    after one rating of a.wav, b.wav and c.wav, a change to a.wav, b.wav and
    d.wav with no feedback file keeps the rating and queues three pairs. *)
Lemma kept_feedback_counted :
  exists st,
    installed (fun l => l) abd_change abc_after_one st /\
    loaded_feedback abd_change = [] /\
    length (audio_files st) = 3 /\
    length (feedback st) + length (remaining_pairs st) - current_pair_index st = 4.
Proof.
  eexists. split; [eapply installed_activated; reflexivity|].
  cbn. repeat split.
Qed.

(** ** Export and resume *)

Lemma same_pair_swap (a b : string) (q : pair_t) :
  same_pair (a, b) q = same_pair (b, a) q.
Proof.
  unfold same_pair. cbn [fst snd]. rewrite orb_comm.
  f_equal; apply andb_comm.
Qed.

Lemma judged_in_swap (fs : list value) (a b : string) :
  judged_in fs (a, b) = judged_in fs (b, a).
Proof.
  unfold judged_in. induction fs as [|f fs IH]; [reflexivity|].
  cbn [existsb]. rewrite IH. f_equal.
  destruct (judged_pair f); [apply same_pair_swap | reflexivity].
Qed.

(** The queue of a fresh session resumed from the ratings [fs]: the
    enumeration of the stored names without the judged pairs, reordered. *)
Lemma resumed_queue (shuffle : list pair_t -> list pair_t)
    (uploads : list uploaded_file) (fs : list value) :
  (forall l, Permutation l (shuffle l)) ->
  forallb is_rating fs = true ->
  exists shown st',
    main shuffle (resume_with uploads (Encoded (VList fs))) initial_state = (Ok shown, st') /\
    Permutation
      (filter (fun p => negb (judged_in fs p))
              (all_pairs (keys (save_uploaded_files uploads))))
      (remaining_pairs st').
Proof.
  intros P Hr.
  set (w := resume_with uploads (Encoded (VList fs))).
  assert (Lw : loaded_feedback w = fs).
  { unfold loaded_feedback, w, resume_with. cbn [feedback_upload].
    change (Encoded (VList fs)) with (json_dumps (VList fs)).
    now rewrite (load_exported fs Hr). }
  assert (G : generate_pairs (item_names w) (loaded_feedback w) =
              Ok (filter (fun p => negb (judged_in fs p)) (all_pairs (item_names w)))).
  { rewrite Lw. apply generate_pairs_judgments. now apply ratings_are_judgments. }
  rewrite main_first_run.
  destruct (truthy (uploaded_files w)) eqn:U.
  - destruct (activate_cases shuffle w initial_state)
      as [[pairs [shown [G' A]]] | [e [G' A]]]; rewrite G in G'; [|discriminate].
    inversion G'; subst pairs. rewrite A.
    exists shown. eexists. split; [reflexivity|].
    cbn [activated remaining_pairs]. apply P.
  - exists [WritePleaseUpload], initial_state. split; [reflexivity|].
    unfold w, resume_with in U. cbn [uploaded_files] in U.
    destruct uploads; [constructor | discriminate].
Qed.

Section RoundTrip.

(** [random.shuffle] reorders the list it is given. *)
Variable shuffle : list pair_t -> list pair_t.
Hypothesis shuffle_permutes : forall l, Permutation l (shuffle l).

(** The JSON codec of the library: [loads] gives back the list of ratings
    that [dumps] wrote. *)
Variable text : Type.
Variable dumps : value -> text.
Variable loads : text -> result value.
Hypothesis loads_dumps :
  forall fs, forallb is_rating fs = true -> loads (dumps (VList fs)) = Ok (VList fs).

(** C8: the download of a session whose feedback is a list of ratings, given
    back as the feedback file of a fresh session on some uploads, leaves a
    queue that holds no pair twice; a pair in it is of two different
    uploaded names, has no rating in either order, and is not there in the
    other order; and of every two different uploaded names without a rating
    the queue holds the pair, in one order.  When every two different
    uploaded names have a rating, the queue is empty. *)
Theorem export_then_resume (uploads : list uploaded_file) (st : session_state)
    (t : text) :
  forallb is_rating (feedback st) = true ->
  download dumps st = Some t ->
  exists shown st',
    main shuffle (resume_with uploads (uploaded_text loads t))
         (initialize_session_state None) = (Ok shown, st') /\
    NoDup (remaining_pairs st') /\
    (forall a b,
       In (a, b) (remaining_pairs st') ->
       In a (map name uploads) /\ In b (map name uploads) /\ a <> b /\
       judged_in (feedback st) (a, b) = false /\
       ~ In (b, a) (remaining_pairs st')) /\
    (forall a b,
       In a (map name uploads) -> In b (map name uploads) -> a <> b ->
       judged_in (feedback st) (a, b) = false ->
       In (a, b) (remaining_pairs st') \/ In (b, a) (remaining_pairs st')) /\
    ((forall a b,
        In a (map name uploads) -> In b (map name uploads) -> a <> b ->
        judged_in (feedback st) (a, b) = true) ->
     remaining_pairs st' = []).
Proof.
  intros Hr Hx. unfold download in Hx.
  destruct (truthy (feedback st)); [|discriminate]. inversion Hx; subst t; clear Hx.
  unfold uploaded_text. rewrite (loads_dumps _ Hr). cbn [initialize_session_state].
  destruct (resumed_queue shuffle uploads (feedback st) shuffle_permutes Hr)
    as [shown [st' [M Q]]].
  exists shown, st'. split; [exact M|].
  set (names := keys (save_uploaded_files uploads)) in *.
  assert (Hnd : NoDup names) by apply save_uploaded_files_NoDup.
  assert (K : forall a b,
             In (a, b) (remaining_pairs st') <->
             In (a, b) (all_pairs names) /\ judged_in (feedback st) (a, b) = false).
  { intros a b. rewrite <- negb_true_iff, <- (filter_In (fun p => negb (judged_in (feedback st) p))).
    split; [apply (Permutation_in _ (Permutation_sym Q)) | apply (Permutation_in _ Q)]. }
  split; [|split; [|split]].
  - apply (Permutation_NoDup Q). apply NoDup_filter. now apply all_pairs_NoDup.
  - intros a b Hin. apply K in Hin. destruct Hin as [Hin J].
    destruct (in_all_pairs_members _ _ _ Hin) as [Ha Hb].
    apply stored_names in Ha. apply stored_names in Hb.
    repeat split; auto.
    + now apply (all_pairs_no_self names).
    + intros Hba. apply K in Hba. destruct Hba as [Hba _].
      now apply (all_pairs_one_orientation names a b Hnd Hin).
  - intros a b Ha Hb N J.
    apply stored_names in Ha. apply stored_names in Hb.
    destruct (all_pairs_covers names a b Ha Hb N) as [H | H]; [left | right]; apply K.
    + now split.
    + split; [assumption | now rewrite <- judged_in_swap].
  - intros C. destruct (remaining_pairs st') as [|[a b] rest]; [reflexivity|].
    exfalso. assert (Hin : In (a, b) ((a, b) :: rest)) by now left.
    apply K in Hin. destruct Hin as [Hin J].
    destruct (in_all_pairs_members _ _ _ Hin) as [Ha Hb].
    apply stored_names in Ha. apply stored_names in Hb.
    rewrite (C a b Ha Hb (all_pairs_no_self names a b Hnd Hin)) in J. discriminate.
Qed.

End RoundTrip.

Lemma export_then_resume_witness :
  exists shown st',
    main (@rev pair_t)
         (resume_with abc_uploads
            (uploaded_text json_loads (json_dumps (VList (feedback abc_after_one)))))
         (initialize_session_state None) = (Ok shown, st') /\
    NoDup (remaining_pairs st') /\
    (forall a b,
       In (a, b) (remaining_pairs st') ->
       In a (map name abc_uploads) /\ In b (map name abc_uploads) /\ a <> b /\
       judged_in (feedback abc_after_one) (a, b) = false /\
       ~ In (b, a) (remaining_pairs st')) /\
    (forall a b,
       In a (map name abc_uploads) -> In b (map name abc_uploads) -> a <> b ->
       judged_in (feedback abc_after_one) (a, b) = false ->
       In (a, b) (remaining_pairs st') \/ In (b, a) (remaining_pairs st')) /\
    ((forall a b,
        In a (map name abc_uploads) -> In b (map name abc_uploads) -> a <> b ->
        judged_in (feedback abc_after_one) (a, b) = true) ->
     remaining_pairs st' = []).
Proof.
  apply (export_then_resume (@rev pair_t) (@Permutation_rev pair_t)
           json_text json_dumps json_loads (fun fs _ => eq_refl)
           abc_uploads abc_after_one (json_dumps (VList (feedback abc_after_one))));
    reflexivity.
Defined.
